(** * threepp: render lists and GPU texture management

    A shallow embedding of [src/threepp/renderers/gl/GLRenderLists.cpp] and
    [src/threepp/renderers/gl/GLTextures.cpp], followed by the properties
    of the render-item pool, the painter sort and the texture resource
    table.

    Conventions.  C++ integers are [Z]; sizes and indices are [nat].  A
    [float] is a [spec_float] of the IEEE-754 specification, compared with
    [SFcompare] (so NaN is unordered).  A [std::shared_ptr<RenderItem>] is
    an address into [heap], the store of all render items ever allocated;
    raw pointers to objects owned elsewhere (object, geometry, material,
    program) are the pointed values, [None] being [nullptr].  A call that
    dereferences a null pointer or throws ([vector::at]) yields [None]. *)

From Stdlib Require Import ZArith List Lia Bool Sorted.
From Stdlib Require Import Floats.SpecFloat.
From stdpp Require Import base option list gmap strings pretty.

Open Scope Z_scope.

(** ** Machine integers *)

(** The cast [(int) x] of an unsigned value: reduction to the signed 32-bit
    range. *)
Definition to_int (x : Z) : Z := (x + 2 ^ 31) mod 2 ^ 32 - 2 ^ 31.

(** Arithmetic on [GLuint]. *)
Definition to_GLuint (x : Z) : Z := x mod 2 ^ 32.

(** IEEE comparisons [x > y] and [x != y] on floats. *)
Definition SFgtb (x y : spec_float) : bool :=
  match SFcompare x y with
  | Some Gt => true
  | _ => false
  end.

Definition SFneqb (x y : spec_float) : bool := negb (SFeqb x y).

(** The float nearest to an integer, in the binary32 format. *)
Definition float_of_Z (n : Z) : spec_float := binary_normalize 24 128 n 0 false.

(** ** Keyed property tables *)

Module GLProperties.

(** Modelled from the spec: [GLProperties] and its per-identity tables are
    declared in [GLProperties.hpp], which is not among the sources.  The
    tables are keyed by the stable identity (UUID); [get] hands out the
    entry of a key and creates a default one the first time the key is
    seen; [remove] drops the entry. *)
Definition get {V : Type} (dflt : V) (key : string) (t : gmap string V)
  : V * gmap string V :=
  match t !! key with
  | Some v => (v, t)
  | None => (dflt, <[key := dflt]> t)
  end.

Definition remove {V : Type} (key : string) (t : gmap string V)
  : gmap string V :=
  delete key t.

End GLProperties.

(** ** Render lists ([GLRenderLists.cpp]) *)

Module GLRenderLists.

(** Modelled from the spec: the scene types are declared in headers that
    are not among the sources; each record carries the fields the render
    list reads. *)
Record Object3D := { o_id : Z; o_renderOrder : Z }.
Record BufferGeometry := { g_id : Z }.
Record Material := { m_id : Z; m_uuid : string; m_transparent : bool }.
Record GLProgram := { p_id : Z }.
Record GeometryGroup := { gg_start : Z; gg_count : Z; gg_materialIndex : Z }.
Record MaterialProperties := { mp_program : option GLProgram }.

Definition MaterialProperties_default : MaterialProperties :=
  {| mp_program := None |}.

(** Modelled from the spec: [RenderItem] is declared in
    [GLRenderLists.hpp]; the fields and their order are those of the
    aggregate built in [getNextRenderItem]. *)
Record RenderItem := {
  id : Z;
  object : option Object3D;
  geometry : option BufferGeometry;
  material : option Material;
  program : option GLProgram;
  groupOrder : Z;
  renderOrder : Z;
  z : spec_float;
  group : option GeometryGroup
}.

(** [a->program != nullptr && b->program != nullptr &&
    a->program->id != b->program->id] *)
Definition programs_differ (a b : RenderItem) : option (GLProgram * GLProgram) :=
  match program a, program b with
  | Some pa, Some pb =>
      if negb (p_id pa =? p_id pb) then Some (pa, pb) else None
  | _, _ => None
  end.

Definition painterSortStable (a b : RenderItem) : option bool :=
  if negb (groupOrder a =? groupOrder b) then
    Some (groupOrder b >? groupOrder a)
  else if negb (renderOrder a =? renderOrder b) then
    Some (renderOrder b >? renderOrder a)
  else
    match programs_differ a b with
    | Some (pa, pb) => Some (p_id pb >? p_id pa)
    | None =>
        match material a, material b with
        | Some ma, Some mb =>
            if negb (m_id ma =? m_id mb) then
              Some (m_id mb >? m_id ma)
            else if SFneqb (z a) (z b) then
              Some (SFgtb (z b) (z a))
            else
              Some (id b >? id a)
        | _, _ => None
        end
    end.

Definition reversePainterSortStable (a b : RenderItem) : option bool :=
  if negb (groupOrder a =? groupOrder b) then
    Some (groupOrder b >? groupOrder a)
  else if negb (renderOrder a =? renderOrder b) then
    Some (renderOrder b >? renderOrder a)
  else
    match programs_differ a b with
    | Some (pa, pb) => Some (p_id pb >? p_id pa)
    | None =>
        match material a, material b with
        | Some ma, Some mb =>
            if negb (m_id ma =? m_id mb) then
              Some (m_id mb >? m_id ma)
            else if SFneqb (z a) (z b) then
              Some (SFgtb (z b) (z a))
            else
              Some (id b >? id a)
        | _, _ => None
        end
    end.

(** [std::stable_sort] of the C++ library.  The library requires [comp]
    to be a strict weak ordering on the range, and then leaves the one
    permutation of the range that is sorted by [comp] with equivalent
    elements in their original order.  It is modelled by stable insertion,
    the last element first; [comp y x] asks whether [y] goes before [x].
    On a range that meets the library's requirement the model returns that
    permutation, whatever algorithm the library runs.  On any other range
    the order the library leaves depends on its algorithm, and the model
    stands for it only in what no sequence of comparisons and moves can
    change: the result is a permutation of the range, in the order of every
    key that [comp] compares consistently. *)
Section stable_sort.
Context {A : Type} (comp : A -> A -> option bool).

Fixpoint insert_sorted (x : A) (l : list A) : option (list A) :=
  match l with
  | [] => Some [x]
  | y :: l' =>
      match comp y x with
      | None => None
      | Some true =>
          match insert_sorted x l' with
          | None => None
          | Some r => Some (y :: r)
          end
      | Some false => Some (x :: y :: l')
      end
  end.

Fixpoint stable_sort (l : list A) : option (list A) :=
  match l with
  | [] => Some []
  | x :: l' =>
      match stable_sort l' with
      | None => None
      | Some s => insert_sorted x s
      end
  end.
End stable_sort.

(** The comparators receive shared pointers and read the items behind
    them. *)
Definition on_pointers (comp : RenderItem -> RenderItem -> option bool)
    (h : list RenderItem) (pa pb : nat) : option bool :=
  match h !! pa, h !! pb with
  | Some a, Some b => comp a b
  | _, _ => None
  end.

Record GLRenderList := {
  heap : list RenderItem;
  properties : gmap string MaterialProperties;
  renderItems : list nat;
  renderItemsIndex : nat;
  opaque : list nat;
  transparent : list nat
}.

(** A render list as constructed: nothing allocated, nothing pooled. *)
Definition GLRenderList_new (props : gmap string MaterialProperties)
  : GLRenderList :=
  {| heap := []; properties := props; renderItems := [];
     renderItemsIndex := 0; opaque := []; transparent := [] |}.

Definition init (l : GLRenderList) : GLRenderList :=
  {| heap := heap l;
     properties := properties l;
     renderItemsIndex := 0;
     renderItems := [];
     opaque := [];
     transparent := [] |}.

Definition getNextRenderItem
    (object : Object3D) (geometry : BufferGeometry) (material : Material)
    (groupOrder : Z) (z : spec_float) (group : option GeometryGroup)
    (l : GLRenderList) : option (nat * GLRenderList) :=
  let '(materialProperties, props) :=
    GLProperties.get MaterialProperties_default (m_uuid material) (properties l) in
  if (length (renderItems l) <=? renderItemsIndex l)%nat then
    let renderItem := length (heap l) in
    Some (renderItem,
          {| heap := heap l ++
               [ {| id := to_int (o_id object);
                    object := Some object;
                    geometry := Some geometry;
                    material := Some material;
                    program := mp_program materialProperties;
                    groupOrder := groupOrder;
                    renderOrder := o_renderOrder object;
                    z := z;
                    group := group |} ];
             properties := props;
             renderItems := renderItems l ++ [renderItem];
             renderItemsIndex := S (renderItemsIndex l);
             opaque := opaque l;
             transparent := transparent l |})
  else
    match renderItems l !! renderItemsIndex l with
    | None => None
    | Some renderItem =>
        match heap l !! renderItem with
        | None => None
        | Some old =>
            Some (renderItem,
                  {| heap := <[renderItem :=
                       {| id := to_int (o_id object);
                          object := Some object;
                          geometry := Some geometry;
                          material := Some material;
                          program :=
                            match mp_program materialProperties with
                            | Some pg => Some pg
                            | None => program old
                            end;
                          groupOrder := groupOrder;
                          renderOrder := o_renderOrder object;
                          z := z;
                          group := group |} ]> (heap l);
                     properties := props;
                     renderItems := renderItems l;
                     renderItemsIndex := S (renderItemsIndex l);
                     opaque := opaque l;
                     transparent := transparent l |})
        end
    end.

Definition set_opaque (o : list nat) (l : GLRenderList) : GLRenderList :=
  {| heap := heap l; properties := properties l;
     renderItems := renderItems l; renderItemsIndex := renderItemsIndex l;
     opaque := o; transparent := transparent l |}.

Definition set_transparent (t : list nat) (l : GLRenderList) : GLRenderList :=
  {| heap := heap l; properties := properties l;
     renderItems := renderItems l; renderItemsIndex := renderItemsIndex l;
     opaque := opaque l; transparent := t |}.

Definition set_heap (h : list RenderItem) (l : GLRenderList) : GLRenderList :=
  {| heap := h; properties := properties l;
     renderItems := renderItems l; renderItemsIndex := renderItemsIndex l;
     opaque := opaque l; transparent := transparent l |}.

Definition push
    (object : Object3D) (geometry : BufferGeometry) (material : Material)
    (groupOrder : Z) (z : spec_float) (group : option GeometryGroup)
    (l : GLRenderList) : option GLRenderList :=
  match getNextRenderItem object geometry material groupOrder z group l with
  | None => None
  | Some (renderItem, l') =>
      if m_transparent material then
        Some (set_transparent (transparent l' ++ [renderItem]) l')
      else
        Some (set_opaque (opaque l' ++ [renderItem]) l')
  end.

Definition unshift
    (object : Object3D) (geometry : BufferGeometry) (material : Material)
    (groupOrder : Z) (z : spec_float) (group : option GeometryGroup)
    (l : GLRenderList) : option GLRenderList :=
  match getNextRenderItem object geometry material groupOrder z group l with
  | None => None
  | Some (renderItem, l') =>
      if m_transparent material then
        Some (set_transparent (renderItem :: transparent l') l')
      else
        Some (set_opaque (renderItem :: opaque l') l')
  end.

(** One bucket of [sort]: [if (v.size() > 1) std::stable_sort(..., comp)]. *)
Definition sort_bucket (comp : RenderItem -> RenderItem -> option bool)
    (h : list RenderItem) (v : list nat) : option (list nat) :=
  if (1 <? length v)%nat then stable_sort (on_pointers comp h) v else Some v.

Definition sort (l : GLRenderList) : option GLRenderList :=
  match sort_bucket painterSortStable (heap l) (opaque l) with
  | None => None
  | Some o =>
      match sort_bucket reversePainterSortStable (heap l) (transparent l) with
      | None => None
      | Some t => Some (set_transparent t (set_opaque o l))
      end
  end.

(** The body of the loop of [finish]. *)
Definition clear_item (it : RenderItem) : RenderItem :=
  {| id := -1;
     object := None;
     geometry := None;
     material := None;
     program := None;
     groupOrder := groupOrder it;
     renderOrder := renderOrder it;
     z := z it;
     group := None |}.

(** The loop of [finish] over the slots [renderItemsIndex ..
    renderItems.size() - 1], given as the list of their pointers. *)
Fixpoint finish_loop (h : list RenderItem) (slots : list nat)
  : option (list RenderItem) :=
  match slots with
  | [] => Some h
  | renderItem :: slots' =>
      match h !! renderItem with
      | None => None
      | Some it =>
          if id it =? -1 then Some h
          else finish_loop (<[renderItem := clear_item it]> h) slots'
      end
  end.

Definition finish (l : GLRenderList) : option GLRenderList :=
  match finish_loop (heap l) (drop (renderItemsIndex l) (renderItems l)) with
  | None => None
  | Some h => Some (set_heap h l)
  end.

(** The arguments of one [push] or [unshift]. *)
Record DrawArgs := {
  a_object : Object3D;
  a_geometry : BufferGeometry;
  a_material : Material;
  a_groupOrder : Z;
  a_z : spec_float;
  a_group : option GeometryGroup
}.

(** The calls a frame makes on a render list after [init]. *)
Inductive Call :=
| Push (a : DrawArgs)
| Unshift (a : DrawArgs)
| Sort
| Finish.

Definition call (c : Call) (l : GLRenderList) : option GLRenderList :=
  match c with
  | Push a =>
      push (a_object a) (a_geometry a) (a_material a) (a_groupOrder a)
           (a_z a) (a_group a) l
  | Unshift a =>
      unshift (a_object a) (a_geometry a) (a_material a) (a_groupOrder a)
              (a_z a) (a_group a) l
  | Sort => sort l
  | Finish => finish l
  end.

Fixpoint calls (cs : list Call) (l : GLRenderList) : option GLRenderList :=
  match cs with
  | [] => Some l
  | c :: cs' =>
      match call c l with
      | None => None
      | Some l' => calls cs' l'
      end
  end.

End GLRenderLists.

(** ** Textures ([GLTextures.cpp]) *)

(** Enumerants of the OpenGL headers. *)
Module GL.
Definition GL_RED := 0x1903.
Definition GL_RGB := 0x1907.
Definition GL_RGBA := 0x1908.
Definition GL_FLOAT := 0x1406.
Definition GL_HALF_FLOAT := 0x140B.
Definition GL_UNSIGNED_BYTE := 0x1401.
Definition GL_R8 := 0x8229.
Definition GL_R16F := 0x822D.
Definition GL_R32F := 0x822E.
Definition GL_RGB8 := 0x8051.
Definition GL_RGB16F := 0x881B.
Definition GL_RGB32F := 0x8815.
Definition GL_RGBA8 := 0x8058.
Definition GL_RGBA16F := 0x881A.
Definition GL_RGBA32F := 0x8814.
Definition GL_TEXTURE0 := 0x84C0.
Definition GL_TEXTURE_2D := 0x0DE1.
Definition GL_UNPACK_ALIGNMENT := 0x0CF5.
Definition GL_TEXTURE_MAG_FILTER := 0x2800.
Definition GL_TEXTURE_MIN_FILTER := 0x2801.
Definition GL_TEXTURE_WRAP_S := 0x2802.
Definition GL_TEXTURE_WRAP_T := 0x2803.
Definition GL_REPEAT := 0x2901.
Definition GL_CLAMP_TO_EDGE := 0x812F.
Definition GL_MIRRORED_REPEAT := 0x8370.
Definition GL_NEAREST := 0x2600.
Definition GL_LINEAR := 0x2601.
Definition GL_NEAREST_MIPMAP_NEAREST := 0x2700.
Definition GL_LINEAR_MIPMAP_NEAREST := 0x2701.
Definition GL_NEAREST_MIPMAP_LINEAR := 0x2702.
Definition GL_LINEAR_MIPMAP_LINEAR := 0x2703.
Definition GL_TEXTURE_3D := 0x806F.
Definition GL_TEXTURE_CUBE_MAP := 0x8513.
Definition GL_TEXTURE_2D_ARRAY := 0x8C1A.
End GL.

Module GLTextures.
Import GL.

(** Modelled from the spec: the wrapping and filter enumerators are
    declared in [constants.hpp], which is not among the sources; the
    values are those of the three.js constants the file mirrors. *)
Definition RepeatWrapping := 1000.
Definition ClampToEdgeWrapping := 1001.
Definition MirroredRepeatWrapping := 1002.
Definition NearestFilter := 1003.
Definition NearestMipmapNearestFilter := 1004.
Definition NearestMipmapLinearFilter := 1005.
Definition LinearFilter := 1006.
Definition LinearMipmapNearestFilter := 1007.
Definition LinearMipmapLinearFilter := 1008.

(** Modelled from the spec: [Image] and [Texture] are declared in headers
    that are not among the sources.  [onUpdate] tells whether the update
    callback is set and [disposeListener] whether the manager's listener
    is registered for the texture's dispose notification. *)
Record Image := { width : Z; height : Z }.

Record Texture := {
  uuid : string;
  version : Z;
  image : option Image;
  mipmaps : list Image;
  generateMipmaps : bool;
  minFilter : Z;
  magFilter : Z;
  wrapS : Z;
  wrapT : Z;
  format : Z;
  type : Z;
  unpackAlignment : Z;
  onUpdate : bool;
  disposeListener : bool
}.

(** Modelled from the spec: [TextureProperties] is declared in
    [GLProperties.hpp]; a new entry has no GPU handle ([glInit] false)
    and stored version 0. *)
Record TextureProperties := {
  glTexture : Z;
  glInit : bool;
  tp_version : Z;
  maxMipLevel : Z
}.

Definition TextureProperties_default : TextureProperties :=
  {| glTexture := 0; glInit := false; tp_version := 0; maxMipLevel := 0 |}.

(** What the manager sends out: calls to the GL (directly or through
    [GLState]), diagnostics on [std::cerr] and the texture's update
    callback. *)
Inductive GLCall :=
| ActiveTexture (unit : Z)
| BindTexture (target handle : Z)
| PixelStorei (pname param : Z)
| TexParameteri (target pname param : Z)
| TexImage2D (target level internalFormat w h fmt ty : Z)
| GenerateMipmap (target : Z)
| GenTextures (handle : Z)
| DeleteTextures (handle : Z)
| Cerr (message : string)
| OnUpdate (texture : string).

Definition is_TexImage2D (c : GLCall) : bool :=
  match c with
  | TexImage2D _ _ _ _ _ _ _ => true
  | _ => false
  end.

(** The manager with what it refers to: the texture table of
    [GLProperties], the texture counter of [GLInfo], the calls sent out so
    far and the next unused texture name of the GL ([glGenTextures]). *)
Record GLTextures := {
  textureProperties : gmap string TextureProperties;
  info_memory_textures : Z;
  textureUnits : Z;
  maxTextures : Z;
  calls : list GLCall;
  gl_next_texture : Z
}.

Definition set_textureProperties (t : gmap string TextureProperties)
    (s : GLTextures) : GLTextures :=
  {| textureProperties := t;
     info_memory_textures := info_memory_textures s;
     textureUnits := textureUnits s; maxTextures := maxTextures s;
     calls := calls s; gl_next_texture := gl_next_texture s |}.

Definition set_info_memory_textures (n : Z) (s : GLTextures) : GLTextures :=
  {| textureProperties := textureProperties s;
     info_memory_textures := n;
     textureUnits := textureUnits s; maxTextures := maxTextures s;
     calls := calls s; gl_next_texture := gl_next_texture s |}.

Definition set_gl_next_texture (n : Z) (s : GLTextures) : GLTextures :=
  {| textureProperties := textureProperties s;
     info_memory_textures := info_memory_textures s;
     textureUnits := textureUnits s; maxTextures := maxTextures s;
     calls := calls s; gl_next_texture := n |}.

Definition emit (c : GLCall) (s : GLTextures) : GLTextures :=
  {| textureProperties := textureProperties s;
     info_memory_textures := info_memory_textures s;
     textureUnits := textureUnits s; maxTextures := maxTextures s;
     calls := calls s ++ [c]; gl_next_texture := gl_next_texture s |}.

(** [properties.textureProperties.get(key)]: the entry and the manager
    whose table has it. *)
Definition get (key : string) (s : GLTextures) : TextureProperties * GLTextures :=
  let '(tp, t) :=
    GLProperties.get TextureProperties_default key (textureProperties s) in
  (tp, set_textureProperties t s).

(** Reading and writing through a reference [TextureProperties &] to the
    entry of [key]. *)
Definition entry (key : string) (s : GLTextures) : TextureProperties :=
  default TextureProperties_default (textureProperties s !! key).

Definition modify (key : string) (f : TextureProperties -> TextureProperties)
    (s : GLTextures) : GLTextures :=
  set_textureProperties (<[key := f (entry key s)]> (textureProperties s)) s.

Definition set_glTexture (n : Z) (tp : TextureProperties) :=
  {| glTexture := n; glInit := glInit tp; tp_version := tp_version tp;
     maxMipLevel := maxMipLevel tp |}.
Definition set_glInit (b : bool) (tp : TextureProperties) :=
  {| glTexture := glTexture tp; glInit := b; tp_version := tp_version tp;
     maxMipLevel := maxMipLevel tp |}.
Definition set_version (v : Z) (tp : TextureProperties) :=
  {| glTexture := glTexture tp; glInit := glInit tp; tp_version := v;
     maxMipLevel := maxMipLevel tp |}.
Definition set_maxMipLevel (n : Z) (tp : TextureProperties) :=
  {| glTexture := glTexture tp; glInit := glInit tp;
     tp_version := tp_version tp; maxMipLevel := n |}.

Definition set_generateMipmaps (b : bool) (t : Texture) : Texture :=
  {| uuid := uuid t; version := version t; image := image t;
     mipmaps := mipmaps t; generateMipmaps := b; minFilter := minFilter t;
     magFilter := magFilter t; wrapS := wrapS t; wrapT := wrapT t;
     format := format t; type := type t;
     unpackAlignment := unpackAlignment t; onUpdate := onUpdate t;
     disposeListener := disposeListener t |}.

Definition set_disposeListener (b : bool) (t : Texture) : Texture :=
  {| uuid := uuid t; version := version t; image := image t;
     mipmaps := mipmaps t; generateMipmaps := generateMipmaps t;
     minFilter := minFilter t; magFilter := magFilter t; wrapS := wrapS t;
     wrapT := wrapT t; format := format t; type := type t;
     unpackAlignment := unpackAlignment t; onUpdate := onUpdate t;
     disposeListener := b |}.

(** The tables [wrappingToGL] and [filterToGL]; [operator[]] on a key that
    is absent yields 0. *)
Definition wrappingToGL : list (Z * Z) :=
  [ (RepeatWrapping, GL_REPEAT);
    (ClampToEdgeWrapping, GL_CLAMP_TO_EDGE);
    (MirroredRepeatWrapping, GL_MIRRORED_REPEAT) ].

Definition filterToGL : list (Z * Z) :=
  [ (NearestFilter, GL_NEAREST);
    (NearestMipmapNearestFilter, GL_NEAREST_MIPMAP_NEAREST);
    (NearestMipmapLinearFilter, GL_NEAREST_MIPMAP_LINEAR);
    (LinearFilter, GL_LINEAR);
    (LinearMipmapNearestFilter, GL_LINEAR_MIPMAP_NEAREST);
    (LinearMipmapLinearFilter, GL_LINEAR_MIPMAP_LINEAR) ].

Fixpoint table_at (t : list (Z * Z)) (k : Z) : Z :=
  match t with
  | [] => 0
  | (k', v) :: t' => if k' =? k then v else table_at t' k
  end.

Definition textureNeedsGenerateMipmaps (texture : Texture) : bool :=
  generateMipmaps texture
  && negb (minFilter texture =? NearestFilter)
  && negb (minFilter texture =? LinearFilter).

Definition getInternalFormat (glFormat glType : Z) : Z :=
  let internalFormat := glFormat in
  let internalFormat :=
    if glFormat =? GL_RED then
      let internalFormat :=
        if glType =? GL_FLOAT then GL_R32F else internalFormat in
      let internalFormat :=
        if glType =? GL_HALF_FLOAT then GL_R16F else internalFormat in
      if glType =? GL_UNSIGNED_BYTE then GL_R8 else internalFormat
    else internalFormat in
  let internalFormat :=
    if glFormat =? GL_RGB then
      let internalFormat :=
        if glType =? GL_FLOAT then GL_RGB32F else internalFormat in
      let internalFormat :=
        if glType =? GL_HALF_FLOAT then GL_RGB16F else internalFormat in
      if glType =? GL_UNSIGNED_BYTE then GL_RGB8 else internalFormat
    else internalFormat in
  let internalFormat :=
    if glFormat =? GL_RGBA then
      let internalFormat :=
        if glType =? GL_FLOAT then GL_RGBA32F else internalFormat in
      let internalFormat :=
        if glType =? GL_HALF_FLOAT then GL_RGBA16F else internalFormat in
      if glType =? GL_UNSIGNED_BYTE then GL_RGBA8 else internalFormat
    else internalFormat in
  internalFormat.

(** [(int) std::log2(std::max(width, height))] for a size of at least 1. *)
Definition generateMipmap (target : Z) (texture : Texture) (w h : Z)
    (s : GLTextures) : GLTextures :=
  let s := emit (GenerateMipmap target) s in
  let '(_, s) := get (uuid texture) s in
  modify (uuid texture) (set_maxMipLevel (Z.log2 (Z.max w h))) s.

Definition setTextureParameters (textureType : Z) (texture : Texture)
    (s : GLTextures) : GLTextures :=
  let s := emit (TexParameteri textureType GL_TEXTURE_WRAP_S
                   (table_at wrappingToGL (wrapS texture))) s in
  let s := emit (TexParameteri textureType GL_TEXTURE_WRAP_T
                   (table_at wrappingToGL (wrapT texture))) s in
  let s := emit (TexParameteri textureType GL_TEXTURE_MAG_FILTER
                   (table_at filterToGL (magFilter texture))) s in
  emit (TexParameteri textureType GL_TEXTURE_MIN_FILTER
          (table_at filterToGL (minFilter texture))) s.

(** [textureProperties] is the key of the entry the reference designates. *)
Definition initTexture (textureProperties : string) (texture : Texture)
    (s : GLTextures) : Texture * GLTextures :=
  if negb (glInit (entry textureProperties s)) then
    let s := modify textureProperties (set_glInit true) s in
    let texture := set_disposeListener true texture in
    let name := gl_next_texture s in
    let s := emit (GenTextures name) s in
    let s := modify textureProperties (set_glTexture name) s in
    let s := set_gl_next_texture (name + 1) s in
    (texture, set_info_memory_textures (info_memory_textures s + 1) s)
  else (texture, s).

(** The loop over the manual mipmaps, [i] being the level of the first. *)
Fixpoint upload_mipmaps (i : Z) (glInternalFormat glFormat glType : Z)
    (ms : list Image) (s : GLTextures) : GLTextures :=
  match ms with
  | [] => s
  | mipmap :: ms' =>
      upload_mipmaps (i + 1) glInternalFormat glFormat glType ms'
        (emit (TexImage2D GL_TEXTURE_2D i glInternalFormat
                 (width mipmap) (height mipmap) glFormat glType) s)
  end.

Section convert.
(** [convert] of [GLUtils.hpp], which is not among the sources: the GL
    enumerant of a format or type constant. *)
Variable convert : Z -> Z.

Definition uploadTexture (textureProperties : string) (texture : Texture)
    (slot : Z) (s : GLTextures) : Texture * GLTextures :=
  match image texture with
  | None => (texture, s)
  | Some image =>
      let textureType := GL_TEXTURE_2D in
      let '(texture, s) := initTexture textureProperties texture s in
      let s := emit (ActiveTexture (to_GLuint (GL_TEXTURE0 + slot))) s in
      let s := emit (BindTexture textureType
                       (glTexture (entry textureProperties s))) s in
      let s := emit (PixelStorei GL_UNPACK_ALIGNMENT
                       (unpackAlignment texture)) s in
      let glFormat := convert (format texture) in
      let glType := convert (type texture) in
      let glInternalFormat := getInternalFormat glFormat glType in
      let s := setTextureParameters textureType texture s in
      let '(texture, s) :=
        if (0 <? length (mipmaps texture))%nat then
          let s := upload_mipmaps 0 glInternalFormat glFormat glType
                     (mipmaps texture) s in
          (set_generateMipmaps false texture,
           modify textureProperties
             (set_maxMipLevel (Z.of_nat (length (mipmaps texture)) - 1)) s)
        else
          let s := emit (TexImage2D GL_TEXTURE_2D 0 glInternalFormat
                           (width image) (height image) glFormat glType) s in
          (texture, modify textureProperties (set_maxMipLevel 0) s) in
      let s :=
        if textureNeedsGenerateMipmaps texture then
          generateMipmap textureType texture (width image) (height image) s
        else s in
      let s := modify textureProperties (set_version (version texture)) s in
      if onUpdate texture then (texture, emit (OnUpdate (uuid texture)) s)
      else (texture, s)
  end.

Definition setTexture2D (texture : Texture) (slot : Z) (s : GLTextures)
  : Texture * GLTextures :=
  let '(textureProperties, s) := get (uuid texture) s in
  let bind (s : GLTextures) :=
    let s := emit (ActiveTexture (to_GLuint (GL_TEXTURE0 + slot))) s in
    emit (BindTexture GL_TEXTURE_2D (glTexture textureProperties)) s in
  if (version texture >? 0)
     && negb (tp_version textureProperties =? version texture) then
    match image texture with
    | None =>
        (texture,
         bind (emit (Cerr "THREE.GLRenderer: Texture marked for update but image is undefined") s))
    | Some _ => uploadTexture (uuid texture) texture slot s
    end
  else (texture, bind s).
End convert.

Definition deallocateTexture (texture : Texture) (s : GLTextures) : GLTextures :=
  let '(textureProperties, s) := get (uuid texture) s in
  if negb (glInit textureProperties) then s
  else
    let s := emit (DeleteTextures (glTexture textureProperties)) s in
    set_textureProperties
      (GLProperties.remove (uuid texture) (GLTextures.textureProperties s)) s.

(** [TextureEventListener::onEvent] for the dispose notification of
    [texture]. *)
Definition onEvent (texture : Texture) (s : GLTextures) : Texture * GLTextures :=
  let texture := set_disposeListener false texture in
  let s := deallocateTexture texture s in
  (texture, set_info_memory_textures (info_memory_textures s - 1) s).

(** The calls sent out between two states of the manager. *)
Definition emitted (s s' : GLTextures) : list GLCall :=
  drop (length (calls s)) (calls s').

Definition uploads (s s' : GLTextures) : bool :=
  existsb is_TexImage2D (emitted s s').

(** *** The other entry points of the manager *)

Definition set_textureUnits (n : Z) (s : GLTextures) : GLTextures :=
  {| textureProperties := textureProperties s;
     info_memory_textures := info_memory_textures s;
     textureUnits := n; maxTextures := maxTextures s;
     calls := calls s; gl_next_texture := gl_next_texture s |}.

Definition filterFallback (f : Z) : Z :=
  if (f =? NearestFilter) || (f =? NearestMipmapNearestFilter)
     || (f =? NearestMipmapLinearFilter)
  then GL_NEAREST
  else GL_LINEAR.

Definition resetTextureUnits (s : GLTextures) : GLTextures :=
  set_textureUnits 0 s.

(** The text written to [std::cerr] when the units run out. *)
Definition too_many_units (textureUnit maxTextures : Z) : string :=
  "THREE.GLTextures: Trying to use " +:+ pretty textureUnit
  +:+ " texture units while this GPU supports only " +:+ pretty maxTextures.

Definition allocateTextureUnit (s : GLTextures) : Z * GLTextures :=
  let textureUnit := textureUnits s in
  let s :=
    if textureUnit >=? maxTextures s then
      emit (Cerr (too_many_units textureUnit (maxTextures s))) s
    else s in
  let s := set_textureUnits (textureUnits s + 1) s in
  (textureUnit, s).

(** The body is a TODO in the source. *)
Definition uploadCubeTexture (textureProperties : string) (texture : Texture)
    (slot : Z) (s : GLTextures) : GLTextures :=
  s.

Section convert_targets.
Variable convert : Z -> Z.

Definition setTexture2DArray (texture : Texture) (slot : Z) (s : GLTextures)
  : Texture * GLTextures :=
  let '(textureProperties, s) := get (uuid texture) s in
  if (version texture >? 0)
     && negb (tp_version textureProperties =? version texture) then
    uploadTexture convert (uuid texture) texture slot s
  else
    let s := emit (ActiveTexture (to_GLuint (GL_TEXTURE0 + slot))) s in
    (texture, emit (BindTexture GL_TEXTURE_2D_ARRAY (glTexture textureProperties)) s).

Definition setTexture3D (texture : Texture) (slot : Z) (s : GLTextures)
  : Texture * GLTextures :=
  let '(textureProperties, s) := get (uuid texture) s in
  if (version texture >? 0)
     && negb (tp_version textureProperties =? version texture) then
    uploadTexture convert (uuid texture) texture slot s
  else
    let s := emit (ActiveTexture (to_GLuint (GL_TEXTURE0 + slot))) s in
    (texture, emit (BindTexture GL_TEXTURE_3D (glTexture textureProperties)) s).
End convert_targets.

Definition setTextureCube (texture : Texture) (slot : Z) (s : GLTextures)
  : Texture * GLTextures :=
  let '(textureProperties, s) := get (uuid texture) s in
  if (version texture >? 0)
     && negb (tp_version textureProperties =? version texture) then
    (texture, uploadCubeTexture (uuid texture) texture slot s)
  else
    let s := emit (ActiveTexture (to_GLuint (GL_TEXTURE0 + slot))) s in
    (texture, emit (BindTexture GL_TEXTURE_CUBE_MAP (glTexture textureProperties)) s).

End GLTextures.

(** * Vocabulary of the properties *)

Module RenderListSpec.
Import GLRenderLists.

(** A list is in the order [stable_sort] leaves it in when no element goes
    strictly before its predecessor. *)
Fixpoint ordered {A : Type} (comp : A -> A -> option bool) (l : list A) : Prop :=
  match l with
  | [] => True
  | x :: l' =>
      match l' with
      | [] => True
      | y :: _ => comp y x = Some false
      end /\ ordered comp l'
  end.

(** A comparator never puts two elements each before the other. *)
Definition asymmetric {A : Type} (comp : A -> A -> option bool) : Prop :=
  forall a b, comp a b = Some true -> comp b a = Some false.

Global Instance spec_float_eq_dec : EqDecision spec_float.
Proof. solve_decision. Defined.

(** The whole sort key of two items is identical: groupOrder, renderOrder,
    program identity, material identity, z and id. *)
Definition same_key (a b : RenderItem) : bool :=
  (groupOrder a =? groupOrder b)
  && (renderOrder a =? renderOrder b)
  && bool_decide (p_id <$> program a = p_id <$> program b)
  && bool_decide (m_id <$> material a = m_id <$> material b)
  && bool_decide (z a = z b)
  && (id a =? id b).

(** The same without the id: the five fields of the stability claim. *)
Definition same_key_but_id (a b : RenderItem) : bool :=
  (groupOrder a =? groupOrder b)
  && (renderOrder a =? renderOrder b)
  && bool_decide (p_id <$> program a = p_id <$> program b)
  && bool_decide (m_id <$> material a = m_id <$> material b)
  && bool_decide (z a = z b).

(** The pointers of a bucket whose item has the key of [a]. *)
Definition keyed_as (h : list RenderItem) (a : RenderItem) (p : nat) : bool :=
  match h !! p with
  | Some b => same_key a b
  | None => false
  end.

(** A pointer to an item in use: it has its material. *)
Definition active (h : list RenderItem) (p : nat) : Prop :=
  exists it, h !! p = Some it /\ is_Some (material it).

Definition buckets_active (l : GLRenderList) : Prop :=
  forall p, p ∈ opaque l ++ transparent l -> active (heap l) p.

(** The slot at the high-water mark can be handed out: the pool is
    exhausted, or the slot holds a live pointer. *)
Definition slot_ready (l : GLRenderList) : Prop :=
  (length (renderItems l) <= renderItemsIndex l)%nat
  \/ exists p, renderItems l !! renderItemsIndex l = Some p
               /\ is_Some (heap l !! p).

(** The record of a material in the table, as [get] reads it. *)
Definition linkage (material : Material) (l : GLRenderList) : MaterialProperties :=
  default MaterialProperties_default (properties l !! m_uuid material).

(** The state of a list during a frame that started with [init] on a
    list whose store held [base] items: the pool is exactly the items
    allocated since, all of them handed out and in one bucket. *)
Record frame (base : nat) (l : GLRenderList) : Prop := {
  frame_pool : renderItems l = seq base (renderItemsIndex l);
  frame_heap : length (heap l) = (base + renderItemsIndex l)%nat;
  frame_buckets : opaque l ++ transparent l ≡ₚ renderItems l;
  frame_active : forall p, p ∈ renderItems l -> active (heap l) p
}.

(** What a call does to the mark and to the buckets. *)
Definition call_effect (c : Call) (l l' : GLRenderList) : Prop :=
  match c with
  | Push a | Unshift a =>
      renderItemsIndex l' = S (renderItemsIndex l)
      /\ if m_transparent (a_material a) then
           length (transparent l') = S (length (transparent l))
           /\ opaque l' = opaque l
         else
           length (opaque l') = S (length (opaque l))
           /\ transparent l' = transparent l
  | Sort | Finish =>
      renderItemsIndex l' = renderItemsIndex l
      /\ length (opaque l') = length (opaque l)
      /\ length (transparent l') = length (transparent l)
  end.

(** The draw a live item was filled from. *)
Definition draw_of (h : list RenderItem) (p : nat) : option DrawArgs :=
  match h !! p with
  | Some {| object := Some o; geometry := Some g; material := Some m;
            groupOrder := go; z := d; group := gr |} =>
      Some {| a_object := o; a_geometry := g; a_material := m;
              a_groupOrder := go; a_z := d; a_group := gr |}
  | _ => None
  end.

(** The item [getNextRenderItem] builds for a draw when it appends. *)
Definition fresh_item (a : DrawArgs) (l : GLRenderList) : RenderItem :=
  {| id := to_int (o_id (a_object a));
     object := Some (a_object a);
     geometry := Some (a_geometry a);
     material := Some (a_material a);
     program := mp_program (linkage (a_material a) l);
     groupOrder := a_groupOrder a;
     renderOrder := o_renderOrder (a_object a);
     z := a_z a;
     group := a_group a |}.

Definition is_transparent (a : DrawArgs) : bool := m_transparent (a_material a).

(** Sample scene: one opaque and one transparent material without a
    compiled program, and draws at depths 1, 5 and 3. *)
Definition basic : Material :=
  {| m_id := 1; m_uuid := "basic"; m_transparent := false |}.
Definition glass : Material :=
  {| m_id := 2; m_uuid := "glass"; m_transparent := true |}.
Definition box : BufferGeometry := {| g_id := 1 |}.

Definition draw (n : Z) (m : Material) (depth : Z) : DrawArgs :=
  {| a_object := {| o_id := n; o_renderOrder := 0 |};
     a_geometry := box; a_material := m; a_groupOrder := 0;
     a_z := float_of_Z depth; a_group := None |}.

Definition depths (l : GLRenderList) (v : list nat) : list (option spec_float) :=
  map (fun p => z <$> heap l !! p) v.

Definition ids (l : GLRenderList) (v : list nat) : list (option Z) :=
  map (fun p => id <$> heap l !! p) v.

Definition fresh_list : GLRenderList := GLRenderList_new ∅.



(** The list a run of calls leaves, [l] itself if a call fails. *)
Definition after (cs : list Call) (l : GLRenderList) : GLRenderList :=
  default l (calls cs l).

(** Two opaque draws that differ in the object only, the greater id first. *)
Definition twins : GLRenderList :=
  after [Push (draw 7 basic 1); Push (draw 3 basic 1)] (init fresh_list).

(** A frame of two draws, finished. *)
Definition first_frame : GLRenderList :=
  after [Push (draw 1 basic 1); Push (draw 2 basic 5); Finish] (init fresh_list).

(** ** Vocabulary of the further properties *)

(** The two leading sort keys of [a] do not exceed those of [b]:
    groupOrder first, renderOrder on a tie. *)
Definition coarse_le (a b : RenderItem) : Prop :=
  groupOrder a < groupOrder b
  \/ (groupOrder a = groupOrder b /\ renderOrder a <= renderOrder b).

Definition coarse_le_at (h : list RenderItem) (p q : nat) : Prop :=
  exists a b, h !! p = Some a /\ h !! q = Some b /\ coarse_le a b.

(** The slots [finish] clears: those from the mark on, up to the first one
    that is already cleared. *)
Fixpoint stale_run (h : list RenderItem) (slots : list nat) : list nat :=
  match slots with
  | [] => []
  | p :: slots' =>
      match h !! p with
      | Some it => if id it =? -1 then [] else p :: stale_run h slots'
      | None => []
      end
  end.

(** Three items with equal groupOrder and renderOrder; the second has no
    program. *)
Definition keyed (prog : option Z) (mat : Z) : RenderItem :=
  {| id := 0; object := Some {| o_id := 0; o_renderOrder := 0 |};
     geometry := Some box;
     material := Some {| m_id := mat; m_uuid := "m"; m_transparent := false |};
     program := (fun n => {| p_id := n |}) <$> prog;
     groupOrder := 0; renderOrder := 0; z := float_of_Z 1; group := None |}.

(** A pool of three items with the mark at 1: the slot at the mark is in
    use, the last one was cleared before. *)
Definition shrunk_list : GLRenderList :=
  {| heap := [ keyed None 1; keyed None 2; clear_item (keyed None 3) ];
     properties := ∅;
     renderItems := [0; 1; 2]%nat;
     renderItemsIndex := 1;
     opaque := [0%nat];
     transparent := [] |}.

(** ** The contract of [std::stable_sort] *)

(** Neither of [x] and [y] goes before the other. *)
Definition incomparable {A : Type} (comp : A -> A -> option bool) (x y : A) : Prop :=
  comp x y = Some false /\ comp y x = Some false.

Definition equivalent {A : Type} (comp : A -> A -> option bool) (x y : A) : bool :=
  match comp x y, comp y x with
  | Some false, Some false => true
  | _, _ => false
  end.

(** What the library requires of the comparator on the elements of the
    range [l]: [comp] returns on them and is a strict weak ordering there,
    that is irreflexive and transitive, with a transitive
    incomparability. *)
Record strict_weak_on {A : Type} (comp : A -> A -> option bool) (l : list A)
  : Prop := {
  swo_total : forall x y, x ∈ l -> y ∈ l -> is_Some (comp x y);
  swo_irrefl : forall x, x ∈ l -> comp x x = Some false;
  swo_trans : forall x y z, x ∈ l -> y ∈ l -> z ∈ l ->
    comp x y = Some true -> comp y z = Some true -> comp x z = Some true;
  swo_equiv : forall x y z, x ∈ l -> y ∈ l -> z ∈ l ->
    incomparable comp x y -> incomparable comp y z -> incomparable comp x z
}.

(** What the library promises of the result [r] on the range [l]: a
    permutation, in which no element goes before an earlier one, and in
    which equivalent elements are in the order they had in [l]. *)
Record stable_sorted {A : Type} (comp : A -> A -> option bool) (l r : list A)
  : Prop := {
  sorted_perm : r ≡ₚ l;
  sorted_order : StronglySorted (fun x y => comp y x = Some false) r;
  sorted_stable : forall x, x ∈ l ->
    List.filter (equivalent comp x) r = List.filter (equivalent comp x) l
}.

(** The sort keys of the items of both buckets are consistent: each
    comparator is a strict weak ordering on its bucket. *)
Definition consistent_keys (l : GLRenderList) : Prop :=
  strict_weak_on (on_pointers painterSortStable (heap l)) (opaque l)
  /\ strict_weak_on (on_pointers reversePainterSortStable (heap l))
       (transparent l).

End RenderListSpec.

Module TextureSpec.
Import GL GLTextures.

(** The nine pairs of the spec: the channel groups RED, RGB and RGBA
    crossed with the types FLOAT, HALF_FLOAT and UNSIGNED_BYTE, each with
    its sized internal format. *)
Definition sized_formats : list (Z * Z * Z) :=
  [ (GL_RED, GL_FLOAT, GL_R32F);
    (GL_RED, GL_HALF_FLOAT, GL_R16F);
    (GL_RED, GL_UNSIGNED_BYTE, GL_R8);
    (GL_RGB, GL_FLOAT, GL_RGB32F);
    (GL_RGB, GL_HALF_FLOAT, GL_RGB16F);
    (GL_RGB, GL_UNSIGNED_BYTE, GL_RGB8);
    (GL_RGBA, GL_FLOAT, GL_RGBA32F);
    (GL_RGBA, GL_HALF_FLOAT, GL_RGBA16F);
    (GL_RGBA, GL_UNSIGNED_BYTE, GL_RGBA8) ].

Fixpoint sized_format_in (t : list (Z * Z * Z)) (glFormat glType : Z) : option Z :=
  match t with
  | [] => None
  | (f, ty, v) :: t' =>
      if (f =? glFormat) && (ty =? glType) then Some v
      else sized_format_in t' glFormat glType
  end.

Definition sized_format : Z -> Z -> option Z := sized_format_in sized_formats.

(** The calls of the loop over the manual mipmaps. *)
Fixpoint mipmap_calls (i : Z) (glInternalFormat glFormat glType : Z)
    (ms : list Image) : list GLCall :=
  match ms with
  | [] => []
  | mipmap :: ms' =>
      TexImage2D GL_TEXTURE_2D i glInternalFormat
        (width mipmap) (height mipmap) glFormat glType
      :: mipmap_calls (i + 1) glInternalFormat glFormat glType ms'
  end.

(** [s'] comes from [s] by steps that send out the calls [evs] and leave
    the counter and the handle of the entry of [k] as they are. *)
Definition tracks (k : string) (s s' : GLTextures) (evs : list GLCall) : Prop :=
  calls s' = calls s ++ evs
  /\ info_memory_textures s' = info_memory_textures s
  /\ glInit (entry k s') = glInit (entry k s)
  /\ glTexture (entry k s') = glTexture (entry k s).

(** The test of [setTexture2D]: the texture was modified since the upload
    its entry records. *)
Definition stale (texture : Texture) (s : GLTextures) : bool :=
  (version texture >? 0)
  && negb (tp_version (entry (uuid texture) s) =? version texture).

(** The message of the missing-image diagnostic. *)
Definition no_image : string :=
  "THREE.GLRenderer: Texture marked for update but image is undefined".

(** Sample textures and manager. *)
Definition checker (v : Z) (img : option Image) : Texture :=
  {| uuid := "checker"; version := v; image := img; mipmaps := [];
     generateMipmaps := true; minFilter := LinearMipmapLinearFilter;
     magFilter := LinearFilter; wrapS := ClampToEdgeWrapping;
     wrapT := ClampToEdgeWrapping; format := 1023; type := 1009;
     unpackAlignment := 4; onUpdate := false; disposeListener := true |}.

Definition manager (t : gmap string TextureProperties) (n : Z) : GLTextures :=
  {| textureProperties := t; info_memory_textures := n; textureUnits := 0;
     maxTextures := 16; calls := []; gl_next_texture := 2 |}.

(** A [convert] that knows the RGBA format and the unsigned byte type. *)
Definition convert_rgba8 (c : Z) : Z :=
  if c =? 1023 then GL_RGBA else if c =? 1009 then GL_UNSIGNED_BYTE else c.

Definition pixels : Image := {| width := 4; height := 4 |}.

Definition uploaded_at (v : Z) : TextureProperties :=
  {| glTexture := 1; glInit := true; tp_version := v; maxMipLevel := 0 |}.

(** The manager after one texture, "checker", was uploaded at version [v]. *)
Definition one_texture (v : Z) : GLTextures :=
  manager {[ "checker" := uploaded_at v ]} 1.

(** ** Vocabulary of the further properties *)

(** [s'] has the table of [s] except possibly at the entry of [k]. *)
Definition keeps (k : string) (s s' : GLTextures) : Prop :=
  forall k', k' <> k -> textureProperties s' !! k' = textureProperties s !! k'.

(** The number of entries whose GPU handle is allocated. *)
Definition allocated (s : GLTextures) : nat :=
  size (filter (fun kv => glInit kv.2 = true) (textureProperties s)).

(** The texture after an upload: the listener is registered when the
    handle was allocated, and automatic mipmaps are switched off when
    manual ones were sent. *)
Definition after_upload (fresh : bool) (texture : Texture) : Texture :=
  let t := if fresh then set_disposeListener true texture else texture in
  match mipmaps texture with
  | [] => t
  | _ :: _ => set_generateMipmaps false t
  end.

(** [n] successive calls of [allocateTextureUnit]: the units handed out
    and the manager left. *)
Fixpoint allocations (n : nat) (s : GLTextures) : list Z * GLTextures :=
  match n with
  | O => ([], s)
  | S n' =>
      let '(u, s1) := allocateTextureUnit s in
      let '(us, s2) := allocations n' s1 in
      (u :: us, s2)
  end.

(** A manager that never saw a texture. *)
Definition empty_manager : GLTextures := manager ∅ 0.

(** A texture with three manual mipmaps. *)
Definition pyramid : Texture :=
  {| uuid := "pyramid"; version := 1; image := Some pixels;
     mipmaps := [ {| width := 4; height := 4 |}; {| width := 2; height := 2 |};
                  {| width := 1; height := 1 |} ];
     generateMipmaps := true; minFilter := LinearMipmapLinearFilter;
     magFilter := LinearFilter; wrapS := RepeatWrapping;
     wrapT := RepeatWrapping; format := 1023; type := 1009;
     unpackAlignment := 4; onUpdate := false; disposeListener := false |}.

(** The calls of an upload into the entry with GPU handle [handle], in
    the order they are made. *)
Definition upload_calls (convert : Z -> Z) (texture : Texture) (slot : Z)
    (img : Image) (handle : Z) : list GLCall :=
  let glFormat := convert (format texture) in
  let glType := convert (type texture) in
  let glInternalFormat := getInternalFormat glFormat glType in
  [ ActiveTexture (to_GLuint (GL_TEXTURE0 + slot));
    BindTexture GL_TEXTURE_2D handle;
    PixelStorei GL_UNPACK_ALIGNMENT (unpackAlignment texture);
    TexParameteri GL_TEXTURE_2D GL_TEXTURE_WRAP_S
      (table_at wrappingToGL (wrapS texture));
    TexParameteri GL_TEXTURE_2D GL_TEXTURE_WRAP_T
      (table_at wrappingToGL (wrapT texture));
    TexParameteri GL_TEXTURE_2D GL_TEXTURE_MAG_FILTER
      (table_at filterToGL (magFilter texture));
    TexParameteri GL_TEXTURE_2D GL_TEXTURE_MIN_FILTER
      (table_at filterToGL (minFilter texture)) ]
  ++ match mipmaps texture with
     | [] =>
         TexImage2D GL_TEXTURE_2D 0 glInternalFormat (width img) (height img)
           glFormat glType
         :: (if textureNeedsGenerateMipmaps texture
             then [GenerateMipmap GL_TEXTURE_2D] else [])
     | ms => mipmap_calls 0 glInternalFormat glFormat glType ms
     end
  ++ (if onUpdate texture then [OnUpdate (uuid texture)] else []).

(** The highest mip level an upload records. *)
Definition uploaded_maxMipLevel (texture : Texture) (img : Image) : Z :=
  match mipmaps texture with
  | [] =>
      if textureNeedsGenerateMipmaps texture
      then Z.log2 (Z.max (width img) (height img))
      else 0
  | ms => Z.of_nat (length ms) - 1
  end.

End TextureSpec.

(** * Properties *)

Module TextureFacts.
Import GL GLTextures TextureSpec.

(** ** The internal-format table *)

Lemma sized_formats_sized :
  Forall (fun e => e.2 <> e.1.1) sized_formats.
Proof. repeat constructor; simpl; discriminate. Qed.

Lemma getInternalFormat_sized_format (glFormat glType : Z) :
  getInternalFormat glFormat glType
  = default glFormat (sized_format glFormat glType).
Proof.
  unfold getInternalFormat, sized_format, sized_formats, sized_format_in.
  unfold GL_RED, GL_RGB, GL_RGBA, GL_FLOAT, GL_HALF_FLOAT, GL_UNSIGNED_BYTE.
  rewrite !(Z.eqb_sym _ glFormat), !(Z.eqb_sym _ glType).
  repeat (case Z.eqb_spec; intros; subst; simpl; try discriminate); reflexivity.
Qed.

(** C6.  [getInternalFormat] is the nine-entry table of sized formats, read
    with the format passed through for every pair the table does not
    list: the table has nine entries with distinct (format, type) keys,
    every entry maps to a sized format different from the plain one, the
    function yields the entry of a listed pair and its first argument for
    any other pair, and (RGBA, UNSIGNED_BYTE) gives GL_RGBA8 and
    (RED, FLOAT) gives GL_R32F. *)
Theorem getInternalFormat_table :
  length sized_formats = 9%nat
  /\ NoDup (fst <$> sized_formats)
  /\ Forall (fun e => e.2 <> e.1.1) sized_formats
  /\ (forall glFormat glType,
        getInternalFormat glFormat glType
        = match sized_format glFormat glType with
          | Some sized => sized
          | None => glFormat
          end)
  /\ (forall glFormat glType,
        is_Some (sized_format glFormat glType)
        <-> (glFormat, glType) ∈ fst <$> sized_formats)
  /\ getInternalFormat GL_RGBA GL_UNSIGNED_BYTE = GL_RGBA8
  /\ getInternalFormat GL_RED GL_FLOAT = GL_R32F.
Proof.
  split; [reflexivity|].
  split; [apply (bool_decide_unpack _); vm_compute; exact I|].
  split; [apply sized_formats_sized|].
  split.
  { intros f t. rewrite getInternalFormat_sized_format.
    destruct (sized_format f t); reflexivity. }
  split; [|split; reflexivity].
  intros f t. unfold sized_format.
  induction sized_formats as [|[[f' t'] v] tl IH]; simpl.
  - split; [intros [? ?]; discriminate | intros H; inversion H].
  - destruct (Z.eqb_spec f' f) as [->|Hf]; simpl.
    + destruct (Z.eqb_spec t' t) as [->|Ht].
      * split; [intros _; left | eauto].
      * rewrite IH. split; [right; assumption|].
        intros H. apply elem_of_cons in H as [H|H]; [congruence|assumption].
    + rewrite IH. split; [right; assumption|].
      intros H. apply elem_of_cons in H as [H|H]; [congruence|assumption].
Qed.

(** ** The effect of the primitive steps *)

Lemma get_eq (key : string) (s : GLTextures) :
  get key s
  = (entry key s,
     set_textureProperties
       (GLProperties.get TextureProperties_default key (textureProperties s)).2 s).
Proof.
  unfold get, entry, GLProperties.get.
  destruct (textureProperties s !! key); reflexivity.
Qed.

Lemma entry_get (key k : string) (s : GLTextures) :
  entry k (set_textureProperties
             (GLProperties.get TextureProperties_default key (textureProperties s)).2 s)
  = entry k s.
Proof.
  unfold entry, GLProperties.get. simpl.
  destruct (textureProperties s !! key) eqn:E; simpl; [reflexivity|].
  destruct (decide (key = k)) as [->|Hne].
  - now rewrite lookup_insert_eq, E.
  - now rewrite lookup_insert_ne.
Qed.

Lemma entry_modify (k : string) (f : TextureProperties -> TextureProperties)
    (s : GLTextures) :
  entry k (modify k f s) = f (entry k s).
Proof. unfold entry at 1, modify. simpl. now rewrite lookup_insert_eq. Qed.

Lemma entry_emit (k : string) (c : GLCall) (s : GLTextures) :
  entry k (emit c s) = entry k s.
Proof. reflexivity. Qed.

Lemma entry_set_info (k : string) (n : Z) (s : GLTextures) :
  entry k (set_info_memory_textures n s) = entry k s.
Proof. reflexivity. Qed.

Lemma entry_set_next (k : string) (n : Z) (s : GLTextures) :
  entry k (set_gl_next_texture n s) = entry k s.
Proof. reflexivity. Qed.

Lemma upload_mipmaps_eq (i f g t : Z) (ms : list Image) (s : GLTextures) :
  upload_mipmaps i f g t ms s
  = {| textureProperties := textureProperties s;
       info_memory_textures := info_memory_textures s;
       textureUnits := textureUnits s; maxTextures := maxTextures s;
       calls := calls s ++ mipmap_calls i f g t ms;
       gl_next_texture := gl_next_texture s |}.
Proof.
  revert i s. induction ms as [|m ms IH]; intros i s; simpl.
  - rewrite app_nil_r. now destruct s.
  - rewrite IH. simpl. now rewrite <- app_assoc.
Qed.

Lemma entry_upload_mipmaps (k : string) (i f g t : Z) (ms : list Image)
    (s : GLTextures) :
  entry k (upload_mipmaps i f g t ms s) = entry k s.
Proof. now rewrite upload_mipmaps_eq. Qed.

Lemma calls_upload_mipmaps (i f g t : Z) (ms : list Image) (s : GLTextures) :
  calls (upload_mipmaps i f g t ms s) = calls s ++ mipmap_calls i f g t ms.
Proof. now rewrite upload_mipmaps_eq. Qed.

Lemma info_upload_mipmaps (i f g t : Z) (ms : list Image) (s : GLTextures) :
  info_memory_textures (upload_mipmaps i f g t ms s) = info_memory_textures s.
Proof. now rewrite upload_mipmaps_eq. Qed.

Lemma generateMipmap_eq (target : Z) (texture : Texture) (w h : Z)
    (s : GLTextures) :
  generateMipmap target texture w h s
  = modify (uuid texture) (set_maxMipLevel (Z.log2 (Z.max w h)))
      (set_textureProperties
         (GLProperties.get TextureProperties_default (uuid texture)
            (textureProperties s)).2
         (emit (GenerateMipmap target) s)).
Proof. unfold generateMipmap. now rewrite get_eq. Qed.

Lemma entry_generateMipmap (k : string) (target : Z) (texture : Texture)
    (w h : Z) (s : GLTextures) :
  entry k (generateMipmap target texture w h s)
  = if decide (uuid texture = k)
    then set_maxMipLevel (Z.log2 (Z.max w h)) (entry k s)
    else entry k s.
Proof.
  rewrite generateMipmap_eq. destruct (decide (uuid texture = k)) as [<-|Hne].
  - rewrite entry_modify.
    now rewrite (entry_get _ _ (emit (GenerateMipmap target) s)).
  - unfold entry at 1, modify. simpl. rewrite lookup_insert_ne by exact Hne.
    apply (entry_get _ _ (emit (GenerateMipmap target) s)).
Qed.

Lemma glInit_generateMipmap (k : string) (target : Z) (texture : Texture)
    (w h : Z) (s : GLTextures) :
  glInit (entry k (generateMipmap target texture w h s)) = glInit (entry k s).
Proof. rewrite entry_generateMipmap. now destruct (decide _). Qed.

Lemma glTexture_generateMipmap (k : string) (target : Z) (texture : Texture)
    (w h : Z) (s : GLTextures) :
  glTexture (entry k (generateMipmap target texture w h s))
  = glTexture (entry k s).
Proof. rewrite entry_generateMipmap. now destruct (decide _). Qed.

Lemma tp_version_generateMipmap (k : string) (target : Z) (texture : Texture)
    (w h : Z) (s : GLTextures) :
  tp_version (entry k (generateMipmap target texture w h s))
  = tp_version (entry k s).
Proof. rewrite entry_generateMipmap. now destruct (decide _). Qed.

Lemma calls_generateMipmap (target : Z) (texture : Texture) (w h : Z)
    (s : GLTextures) :
  calls (generateMipmap target texture w h s) = calls s ++ [GenerateMipmap target].
Proof. now rewrite generateMipmap_eq. Qed.

Lemma info_generateMipmap (target : Z) (texture : Texture) (w h : Z)
    (s : GLTextures) :
  info_memory_textures (generateMipmap target texture w h s)
  = info_memory_textures s.
Proof. now rewrite generateMipmap_eq. Qed.

Lemma entry_setTextureParameters (k : string) (target : Z) (texture : Texture)
    (s : GLTextures) :
  entry k (setTextureParameters target texture s) = entry k s.
Proof. reflexivity. Qed.

Lemma calls_setTextureParameters (target : Z) (texture : Texture)
    (s : GLTextures) :
  calls (setTextureParameters target texture s)
  = calls s
    ++ [ TexParameteri target GL_TEXTURE_WRAP_S (table_at wrappingToGL (wrapS texture));
         TexParameteri target GL_TEXTURE_WRAP_T (table_at wrappingToGL (wrapT texture));
         TexParameteri target GL_TEXTURE_MAG_FILTER (table_at filterToGL (magFilter texture));
         TexParameteri target GL_TEXTURE_MIN_FILTER (table_at filterToGL (minFilter texture)) ].
Proof. unfold setTextureParameters. simpl. now rewrite <- !app_assoc. Qed.

Lemma info_setTextureParameters (target : Z) (texture : Texture)
    (s : GLTextures) :
  info_memory_textures (setTextureParameters target texture s)
  = info_memory_textures s.
Proof. reflexivity. Qed.

Lemma calls_emit (c : GLCall) (s : GLTextures) :
  calls (emit c s) = calls s ++ [c].
Proof. reflexivity. Qed.

Lemma calls_modify (k : string) (f : TextureProperties -> TextureProperties)
    (s : GLTextures) :
  calls (modify k f s) = calls s.
Proof. reflexivity. Qed.

Lemma info_emit (c : GLCall) (s : GLTextures) :
  info_memory_textures (emit c s) = info_memory_textures s.
Proof. reflexivity. Qed.

Lemma info_modify (k : string) (f : TextureProperties -> TextureProperties)
    (s : GLTextures) :
  info_memory_textures (modify k f s) = info_memory_textures s.
Proof. reflexivity. Qed.

Lemma info_set_info_eq (n : Z) (s : GLTextures) :
  info_memory_textures (set_info_memory_textures n s) = n.
Proof. reflexivity. Qed.

Lemma emitted_app (s s' : GLTextures) (evs : list GLCall) :
  calls s' = calls s ++ evs -> emitted s s' = evs.
Proof. unfold emitted. intros ->. apply drop_app_length. Qed.

(** ** Steps that keep the handle *)

Section tracks_facts.
Context (k : string) (s0 : GLTextures).

Lemma tracks_refl : tracks k s0 s0 [].
Proof. unfold tracks. now rewrite app_nil_r. Qed.

Lemma tracks_emit (s : GLTextures) (evs : list GLCall) (c : GLCall) :
  tracks k s0 s evs -> tracks k s0 (emit c s) (evs ++ [c]).
Proof.
  intros (Hc & Hi & Hg & Ht). unfold tracks.
  now rewrite calls_emit, Hc, app_assoc, info_emit, entry_emit.
Qed.

Lemma tracks_maxMipLevel (s : GLTextures) (evs : list GLCall) (n : Z) :
  tracks k s0 s evs -> tracks k s0 (modify k (set_maxMipLevel n) s) evs.
Proof.
  intros (Hc & Hi & Hg & Ht). unfold tracks.
  now rewrite calls_modify, info_modify, entry_modify.
Qed.

Lemma tracks_version (s : GLTextures) (evs : list GLCall) (v : Z) :
  tracks k s0 s evs -> tracks k s0 (modify k (set_version v) s) evs.
Proof.
  intros (Hc & Hi & Hg & Ht). unfold tracks.
  now rewrite calls_modify, info_modify, entry_modify.
Qed.

Lemma tracks_setTextureParameters (s : GLTextures) (evs : list GLCall)
    (target : Z) (texture : Texture) :
  tracks k s0 s evs ->
  tracks k s0 (setTextureParameters target texture s)
    (evs ++
     [ TexParameteri target GL_TEXTURE_WRAP_S (table_at wrappingToGL (wrapS texture));
       TexParameteri target GL_TEXTURE_WRAP_T (table_at wrappingToGL (wrapT texture));
       TexParameteri target GL_TEXTURE_MAG_FILTER (table_at filterToGL (magFilter texture));
       TexParameteri target GL_TEXTURE_MIN_FILTER (table_at filterToGL (minFilter texture)) ]).
Proof.
  intros (Hc & Hi & Hg & Ht). unfold tracks.
  now rewrite calls_setTextureParameters, Hc, app_assoc,
    info_setTextureParameters, entry_setTextureParameters.
Qed.

Lemma tracks_upload_mipmaps (s : GLTextures) (evs : list GLCall)
    (i f g t : Z) (ms : list Image) :
  tracks k s0 s evs ->
  tracks k s0 (upload_mipmaps i f g t ms s) (evs ++ mipmap_calls i f g t ms).
Proof.
  intros (Hc & Hi & Hg & Ht). unfold tracks.
  now rewrite calls_upload_mipmaps, Hc, app_assoc, info_upload_mipmaps,
    entry_upload_mipmaps.
Qed.

Lemma tracks_generateMipmap (s : GLTextures) (evs : list GLCall)
    (target : Z) (texture : Texture) (w h : Z) :
  tracks k s0 s evs ->
  tracks k s0 (generateMipmap target texture w h s)
    (evs ++ [GenerateMipmap target]).
Proof.
  intros (Hc & Hi & Hg & Ht). unfold tracks.
  now rewrite calls_generateMipmap, Hc, app_assoc, info_generateMipmap,
    glInit_generateMipmap, glTexture_generateMipmap.
Qed.

End tracks_facts.

(** Follows the steps a state is built with, innermost last. *)
Ltac track :=
  repeat lazymatch goal with
    | |- tracks _ _ (emit _ _) _ => eapply tracks_emit
    | |- tracks _ _ (modify _ (set_maxMipLevel _) _) _ =>
        eapply tracks_maxMipLevel
    | |- tracks _ _ (modify _ (set_version _) _) _ => eapply tracks_version
    | |- tracks _ _ (setTextureParameters _ _ _) _ =>
        eapply tracks_setTextureParameters
    | |- tracks _ _ (upload_mipmaps _ _ _ _ _ _) _ =>
        eapply tracks_upload_mipmaps
    | |- tracks _ _ (generateMipmap _ _ _ _ _) _ =>
        eapply tracks_generateMipmap
    | |- tracks _ ?s ?s _ => apply tracks_refl
    end.

(** ** [initTexture] *)

Lemma initTexture_spec (k : string) (texture : Texture) (s : GLTextures) :
  let fresh := negb (glInit (entry k s)) in
  exists t1 s1,
    initTexture k texture s = (t1, s1)
    /\ t1 = (if fresh then set_disposeListener true texture else texture)
    /\ calls s1
       = calls s ++ (if fresh then [GenTextures (gl_next_texture s)] else [])
    /\ info_memory_textures s1
       = info_memory_textures s + (if fresh then 1 else 0)
    /\ glInit (entry k s1) = true
    /\ glTexture (entry k s1)
       = (if fresh then gl_next_texture s else glTexture (entry k s)).
Proof.
  unfold initTexture. destruct (glInit (entry k s)) eqn:Hinit; simpl negb.
  - exists texture, s. rewrite app_nil_r, Z.add_0_r. split_and!; auto.
  - do 2 eexists. split; [reflexivity|].
    rewrite entry_set_info, entry_set_next, entry_modify, entry_emit,
      entry_modify.
    split_and!; reflexivity.
Qed.

Section texture_facts.
Context (convert : Z -> Z).

(** ** [uploadTexture] *)

Lemma uploadTexture_effect (texture : Texture) (slot : Z) (s : GLTextures)
    (img : Image) :
  image texture = Some img ->
  let k := uuid texture in
  let r := uploadTexture convert k texture slot s in
  let fresh := negb (glInit (entry k s)) in
  (exists evs,
     calls r.2
     = calls s ++ (if fresh then [GenTextures (gl_next_texture s)] else []) ++ evs
     /\ existsb is_TexImage2D evs = true)
  /\ info_memory_textures r.2
     = info_memory_textures s + (if fresh then 1 else 0)
  /\ glInit (entry k r.2) = true
  /\ glTexture (entry k r.2)
     = (if fresh then gl_next_texture s else glTexture (entry k s))
  /\ tp_version (entry k r.2) = version texture
  /\ disposeListener r.1
     = (if fresh then true else disposeListener texture)
  /\ uuid r.1 = uuid texture.
Proof.
  intros Himg k r fresh. subst r. unfold uploadTexture. rewrite Himg.
  destruct (initTexture_spec k texture s)
    as (t1 & s1 & -> & Ht1 & Hc1 & Hi1 & Hg1 & Hh1).
  fold fresh in Ht1, Hc1, Hi1, Hh1 |- *.
  assert (Hu : uuid t1 = k) by (subst t1; now destruct fresh).
  assert (Hv : version t1 = version texture) by (subst t1; now destruct fresh).
  assert (Hd : disposeListener t1
               = (if fresh then true else disposeListener texture))
    by (subst t1; now destruct fresh).
  clear Ht1.
  destruct (mipmaps t1) as [|m ms] eqn:Hm; cbn [length Nat.ltb Nat.leb];
    repeat match goal with
           | |- context [if textureNeedsGenerateMipmaps ?t then _ else _] =>
               destruct (textureNeedsGenerateMipmaps t)
           | |- context [if onUpdate ?t then _ else _] =>
               destruct (onUpdate t)
           end;
    cbn [fst snd];
    match goal with
    | |- (exists evs, calls ?F = _ /\ _) /\ _ =>
        assert (exists evs, tracks k s1 F evs
                            /\ existsb is_TexImage2D evs = true)
          as (evs & (Hc & Hi & Hg & Hh) & Hex)
          by (eexists; split; [track|];
              rewrite !existsb_app;
              cbn [existsb is_TexImage2D mipmap_calls orb app];
              rewrite ?orb_true_r; reflexivity);
        assert (Hver : tp_version (entry k F) = version texture)
          by (rewrite ?entry_emit, entry_modify; exact Hv);
        rewrite Hc, Hi, Hg, Hh, Hver, Hc1, <- app_assoc
    end;
    (split; [exists evs; split; [reflexivity | exact Hex]|]);
    cbn [uuid version disposeListener set_generateMipmaps];
    split_and!; assumption || reflexivity.
Qed.

(** ** [setTexture2D] *)

(** The entry is looked up first; the lookup sends nothing out and leaves
    counter, name supply and every entry as they read. *)
Lemma get_spec (key : string) (s : GLTextures) :
  exists s1,
    get key s = (entry key s, s1)
    /\ calls s1 = calls s
    /\ info_memory_textures s1 = info_memory_textures s
    /\ gl_next_texture s1 = gl_next_texture s
    /\ (forall k, entry k s1 = entry k s).
Proof.
  eexists. split; [apply get_eq|]. split_and!; try reflexivity.
  intros k. apply entry_get.
Qed.

Lemma stale_spec (texture : Texture) (s : GLTextures) :
  stale texture s = true
  <-> version texture > 0
      /\ tp_version (entry (uuid texture) s) <> version texture.
Proof.
  unfold stale. rewrite andb_true_iff, negb_true_iff, Z.eqb_neq, Z.gtb_ltb,
    Z.ltb_lt. lia.
Qed.

Lemma setTexture2D_upload (texture : Texture) (slot : Z) (s : GLTextures)
    (img : Image) :
  stale texture s = true -> image texture = Some img ->
  let k := uuid texture in
  let r := setTexture2D convert texture slot s in
  let fresh := negb (glInit (entry k s)) in
  (exists evs,
     emitted s r.2
     = (if fresh then [GenTextures (gl_next_texture s)] else []) ++ evs
     /\ existsb is_TexImage2D evs = true)
  /\ info_memory_textures r.2
     = info_memory_textures s + (if fresh then 1 else 0)
  /\ glInit (entry k r.2) = true
  /\ glTexture (entry k r.2)
     = (if fresh then gl_next_texture s else glTexture (entry k s))
  /\ tp_version (entry k r.2) = version texture
  /\ disposeListener r.1
     = (if fresh then true else disposeListener texture).
Proof.
  intros Hstale Himg k r fresh. subst r. unfold setTexture2D.
  destruct (get_spec (uuid texture) s) as (s1 & -> & Hc & Hi & Hn & He).
  fold (stale texture s). rewrite Hstale, Himg.
  destruct (uploadTexture_effect texture slot s1 img Himg)
    as ((evs & Hcalls & Hex) & Hinfo & Hg & Hh & Hv & Hd & _).
  fold k in Hcalls, Hinfo, Hg, Hh, Hv, Hd.
  rewrite He in Hcalls, Hinfo, Hh, Hd.
  rewrite Hc, Hn in Hcalls. rewrite Hi in Hinfo. rewrite Hn in Hh.
  split_and!; try assumption.
  exists evs. split; [now apply emitted_app | exact Hex].
Qed.

Lemma setTexture2D_bind (texture : Texture) (slot : Z) (s : GLTextures) :
  stale texture s = false ->
  let r := setTexture2D convert texture slot s in
  r.1 = texture
  /\ emitted s r.2
     = [ ActiveTexture (to_GLuint (GL_TEXTURE0 + slot));
         BindTexture GL_TEXTURE_2D (glTexture (entry (uuid texture) s)) ]
  /\ info_memory_textures r.2 = info_memory_textures s.
Proof.
  intros Hstale r. subst r. unfold setTexture2D.
  destruct (get_spec (uuid texture) s) as (s1 & -> & Hc & Hi & Hn & He).
  fold (stale texture s). rewrite Hstale. cbn [fst snd].
  split; [reflexivity|]. split; [|now rewrite !info_emit].
  apply emitted_app. now rewrite !calls_emit, Hc, <- app_assoc.
Qed.

Lemma setTexture2D_no_image (texture : Texture) (slot : Z) (s : GLTextures) :
  stale texture s = true -> image texture = None ->
  let r := setTexture2D convert texture slot s in
  r.1 = texture
  /\ emitted s r.2
     = [ Cerr no_image;
         ActiveTexture (to_GLuint (GL_TEXTURE0 + slot));
         BindTexture GL_TEXTURE_2D (glTexture (entry (uuid texture) s)) ]
  /\ info_memory_textures r.2 = info_memory_textures s.
Proof.
  intros Hstale Himg r. subst r. unfold setTexture2D.
  destruct (get_spec (uuid texture) s) as (s1 & -> & Hc & Hi & Hn & He).
  fold (stale texture s). rewrite Hstale, Himg. cbn [fst snd].
  split; [reflexivity|]. split; [|now rewrite !info_emit].
  apply emitted_app. now rewrite !calls_emit, Hc, <- !app_assoc.
Qed.

(** C5, amended.  [setTexture2D] uploads exactly when the texture's
    version is greater than 0, differs from the version stored in its
    entry, and an image is present; with version 0 it never uploads; and
    when the version is positive and differs but there is no image, it
    writes the diagnostic and then binds the handle of the entry to the
    given slot, leaving the texture as it was. *)
Theorem setTexture2D_uploads_iff_changed
    (texture : Texture) (slot : Z) (s : GLTextures) :
  let stored := entry (uuid texture) s in
  let r := setTexture2D convert texture slot s in
  (uploads s r.2 = true
   <-> version texture > 0
       /\ tp_version stored <> version texture
       /\ is_Some (image texture))
  /\ (version texture = 0 -> uploads s r.2 = false)
  /\ (version texture > 0 -> tp_version stored <> version texture ->
      image texture = None ->
      r.1 = texture
      /\ emitted s r.2
         = [ Cerr no_image;
             ActiveTexture (to_GLuint (GL_TEXTURE0 + slot));
             BindTexture GL_TEXTURE_2D (glTexture stored) ]).
Proof.
  intros stored r. subst stored.
  assert (Hiff : uploads s r.2 = true
                 <-> version texture > 0
                     /\ tp_version (entry (uuid texture) s) <> version texture
                     /\ is_Some (image texture)).
  { unfold uploads, r. destruct (stale texture s) eqn:Hstale.
    - destruct (proj1 (stale_spec _ _) Hstale) as [Hpos Hne].
      destruct (image texture) as [img|] eqn:Himg.
      + destruct (setTexture2D_upload texture slot s img Hstale Himg)
          as ((evs & -> & Hex) & _).
        rewrite existsb_app, Hex, orb_true_r. split; eauto.
      + destruct (setTexture2D_no_image texture slot s Hstale Himg)
          as (_ & -> & _).
        simpl. split; [discriminate | intros (_ & _ & [? ?]); discriminate].
    - destruct (setTexture2D_bind texture slot s Hstale) as (_ & -> & _).
      simpl. split; [discriminate|]. intros (Hpos & Hne & _).
      rewrite (proj2 (stale_spec _ _) (conj Hpos Hne)) in Hstale.
      discriminate. }
  split; [exact Hiff|]. split.
  - intros H0. destruct (uploads s r.2); [|reflexivity].
    destruct (proj1 Hiff eq_refl) as [Hpos _]. lia.
  - intros Hpos Hne Himg.
    assert (Hstale : stale texture s = true) by (apply stale_spec; auto).
    destruct (setTexture2D_no_image texture slot s Hstale Himg) as (? & ? & _).
    auto.
Qed.

(** ** Disposal *)

Lemma onEvent_allocated (texture : Texture) (s : GLTextures)
    (tp : TextureProperties) :
  textureProperties s !! uuid texture = Some tp ->
  glInit tp = true ->
  let r := onEvent texture s in
  info_memory_textures r.2 = info_memory_textures s - 1
  /\ emitted s r.2 = [DeleteTextures (glTexture tp)]
  /\ textureProperties r.2 = delete (uuid texture) (textureProperties s)
  /\ gl_next_texture r.2 = gl_next_texture s
  /\ r.1 = set_disposeListener false texture.
Proof.
  intros Htp Hinit r. subst r.
  unfold onEvent, deallocateTexture, get, GLProperties.get, GLProperties.remove.
  cbn [uuid set_disposeListener]. rewrite Htp, Hinit. cbn [negb fst snd].
  split_and!; try reflexivity.
  apply emitted_app. reflexivity.
Qed.

(** C9.  Handling the dispose notification of a texture whose entry has a
    GPU handle lowers the live-texture counter by exactly 1, deletes that
    handle, removes the entry from the table and unregisters the listener;
    the next use of the same identity with new content then allocates as
    for a texture never seen: a new handle is generated first, the counter
    goes up by 1, the listener is registered, and the content is
    uploaded into an entry with [glInit] set. *)
Theorem dispose_then_reuse_reallocates
    (texture : Texture) (s : GLTextures) (tp : TextureProperties) :
  textureProperties s !! uuid texture = Some tp ->
  glInit tp = true ->
  let r := onEvent texture s in
  info_memory_textures r.2 = info_memory_textures s - 1
  /\ emitted s r.2 = [DeleteTextures (glTexture tp)]
  /\ textureProperties r.2 !! uuid texture = None
  /\ disposeListener r.1 = false
  /\ (forall again slot img,
        uuid again = uuid texture -> version again > 0 ->
        image again = Some img ->
        let r' := setTexture2D convert again slot r.2 in
        (exists evs,
           emitted r.2 r'.2 = GenTextures (gl_next_texture r.2) :: evs
           /\ existsb is_TexImage2D evs = true)
        /\ info_memory_textures r'.2 = info_memory_textures r.2 + 1
        /\ glInit (entry (uuid texture) r'.2) = true
        /\ glTexture (entry (uuid texture) r'.2) = gl_next_texture r.2
        /\ tp_version (entry (uuid texture) r'.2) = version again
        /\ disposeListener r'.1 = true).
Proof.
  intros Htp Hinit r.
  destruct (onEvent_allocated texture s tp Htp Hinit)
    as (Hinfo & Hem & Htable & Hnext & Ht).
  fold r in Hinfo, Hem, Htable, Hnext, Ht.
  assert (Hnone : textureProperties r.2 !! uuid texture = None)
    by (rewrite Htable; apply lookup_delete_eq).
  split; [exact Hinfo|]. split; [exact Hem|]. split; [exact Hnone|].
  split; [now rewrite Ht|].
  intros again slot img Hu Hpos Himg r'.
  assert (Hentry : entry (uuid again) r.2 = TextureProperties_default)
    by (unfold entry; now rewrite Hu, Hnone).
  assert (Hstale : stale again r.2 = true).
  { apply stale_spec. rewrite Hentry. simpl. lia. }
  destruct (setTexture2D_upload again slot r.2 img Hstale Himg)
    as (Hev & Hi & Hg & Hh & Hv & Hd).
  fold r' in Hev, Hi, Hg, Hh, Hv, Hd.
  rewrite Hentry in Hev, Hi, Hh, Hd. simpl in Hev, Hi, Hh, Hd.
  rewrite Hu in Hg, Hh, Hv. auto 10.
Qed.

End texture_facts.

Lemma setTexture2D_uploads_iff_changed_witness :
  let s := one_texture 1 in
  let r := setTexture2D convert_rgba8 (checker 3 None) 0 s in
  r.1 = checker 3 None
  /\ emitted s r.2
     = [ Cerr no_image;
         ActiveTexture (to_GLuint (GL_TEXTURE0 + 0));
         BindTexture GL_TEXTURE_2D (glTexture (entry "checker" s)) ].
Proof.
  intros s r.
  destruct (setTexture2D_uploads_iff_changed convert_rgba8 (checker 3 None) 0 s)
    as (_ & _ & H).
  apply H; [reflexivity | vm_compute; discriminate | reflexivity].
Defined.

(** C5, as stated, fails: the entry records version 5, the texture is at
    version 3 with an image, and [setTexture2D] uploads although 3 is not
    greater than 5. *)
Lemma setTexture2D_uploads_smaller_version :
  let s := one_texture 5 in
  let t := checker 3 (Some pixels) in
  uploads s (setTexture2D convert_rgba8 t 0 s).2 = true
  /\ version t > 0
  /\ is_Some (image t)
  /\ ~ version t > tp_version (entry (uuid t) s).
Proof.
  intros s t. split; [vm_compute; reflexivity|].
  split; [reflexivity|]. split; [eexists; reflexivity|].
  vm_compute. discriminate.
Qed.

Lemma dispose_then_reuse_reallocates_witness :
  let s := one_texture 1 in
  let r := onEvent (checker 1 (Some pixels)) s in
  textureProperties s !! "checker" = Some (uploaded_at 1)
  /\ glInit (uploaded_at 1) = true
  /\ info_memory_textures r.2 = 1 - 1
  /\ emitted s r.2 = [DeleteTextures 1]
  /\ textureProperties r.2 !! "checker" = None.
Proof.
  intros s r.
  assert (H1 : textureProperties s !! uuid (checker 1 (Some pixels))
               = Some (uploaded_at 1)) by (vm_compute; reflexivity).
  assert (H2 : glInit (uploaded_at 1) = true) by reflexivity.
  destruct (dispose_then_reuse_reallocates convert_rgba8
              (checker 1 (Some pixels)) s (uploaded_at 1) H1 H2)
    as (Hi & He & Hn & _).
  split; [exact H1|]. split; [exact H2|]. split; [exact Hi|].
  split; [exact He | exact Hn].
Defined.

(** * Further properties of the texture manager *)

Lemma emitted_nil (s s' : GLTextures) : calls s' = calls s -> emitted s s' = [].
Proof. intros H. apply emitted_app. now rewrite app_nil_r. Qed.

Lemma get_lookup (key : string) (s : GLTextures) :
  textureProperties (get key s).2 !! key = Some (entry key s).
Proof.
  unfold get, entry, GLProperties.get.
  destruct (textureProperties s !! key) eqn:E; simpl; [exact E|].
  apply lookup_insert_eq.
Qed.

(** X8.  Handling the dispose notification of a texture whose entry has no
    GPU handle (or that has no entry yet) deletes nothing and sends nothing
    out, yet it lowers the live-texture counter by 1 all the same, and it
    leaves an entry for the texture in the table. *)
Theorem dispose_unallocated_still_counts_down (texture : Texture) (s : GLTextures) :
  glInit (entry (uuid texture) s) = false ->
  let r := onEvent texture s in
  info_memory_textures r.2 = info_memory_textures s - 1
  /\ emitted s r.2 = []
  /\ textureProperties r.2 !! uuid texture = Some (entry (uuid texture) s)
  /\ (forall k, entry k r.2 = entry k s)
  /\ r.1 = set_disposeListener false texture.
Proof.
  intros Hinit r. subst r. unfold onEvent, deallocateTexture.
  cbn [uuid set_disposeListener].
  pose proof (get_lookup (uuid texture) s) as Hlook.
  destruct (get_spec (uuid texture) s) as (s1 & E & Hc & Hi & _ & He).
  rewrite E in Hlook |- *. rewrite Hinit. cbn [negb fst snd] in Hlook |- *.
  split_and!; auto using emitted_nil.
  rewrite info_set_info_eq. lia.
Qed.

Lemma dispose_unallocated_still_counts_down_witness :
  let r := onEvent (checker 1 None) empty_manager in
  glInit (entry "checker" empty_manager) = false
  /\ info_memory_textures r.2 = 0 - 1
  /\ emitted empty_manager r.2 = []
  /\ textureProperties r.2 !! "checker" = Some (entry "checker" empty_manager).
Proof.
  intros r.
  assert (H : glInit (entry (uuid (checker 1 None)) empty_manager) = false)
    by reflexivity.
  destruct (dispose_unallocated_still_counts_down (checker 1 None)
              empty_manager H) as (Hi & He & Hl & _).
  split; [exact H|]. split; [exact Hi|]. split; [exact He | exact Hl].
Defined.

(** ** Texture units *)

Lemma allocateTextureUnit_spec (s : GLTextures) :
  exists s',
    allocateTextureUnit s = (textureUnits s, s')
    /\ textureUnits s' = textureUnits s + 1
    /\ maxTextures s' = maxTextures s
    /\ textureProperties s' = textureProperties s
    /\ info_memory_textures s' = info_memory_textures s
    /\ calls s'
       = calls s
         ++ (if textureUnits s >=? maxTextures s
             then [Cerr (too_many_units (textureUnits s) (maxTextures s))]
             else []).
Proof.
  unfold allocateTextureUnit. eexists. split; [reflexivity|].
  destruct (textureUnits s >=? maxTextures s); simpl; split_and!;
    try reflexivity.
  now rewrite app_nil_r.
Qed.

Lemma allocations_spec (n : nat) (s : GLTextures) :
  let r := allocations n s in
  r.1 = (fun i => textureUnits s + Z.of_nat i) <$> seq 0 n
  /\ textureUnits r.2 = textureUnits s + Z.of_nat n
  /\ maxTextures r.2 = maxTextures s
  /\ textureProperties r.2 = textureProperties s
  /\ info_memory_textures r.2 = info_memory_textures s
  /\ calls r.2
     = calls s
       ++ ((fun u => Cerr (too_many_units u (maxTextures s)))
           <$> List.filter (fun u => u >=? maxTextures s) r.1).
Proof.
  revert s. induction n as [|n IH]; intros s.
  - simpl. rewrite app_nil_r. split_and!; try reflexivity. lia.
  - cbn [allocations].
    destruct (allocateTextureUnit_spec s)
      as (s1 & -> & Hu & Hm & Ht & Hi & Hc).
    specialize (IH s1). destruct (allocations n s1) as [us s2].
    cbn [fst snd] in IH |- *.
    destruct IH as (IH1 & IH2 & IH3 & IH4 & IH5 & IH6).
    rewrite IH2, IH3, IH4, IH5, IH6, IH1, Hu, Hm, Ht, Hi, Hc.
    split_and!; try reflexivity; try lia.
    + cbn [seq fmap list_fmap]. rewrite Z.add_0_r. f_equal.
      rewrite <- fmap_S_seq, <- list_fmap_compose. apply list_fmap_ext.
      intros _ i _. simpl. lia.
    + cbn [List.filter]. rewrite <- app_assoc. f_equal.
      assert (Heq : (fun i => textureUnits s + 1 + Z.of_nat i) <$> seq 0 n
                    = us) by (now rewrite IH1, Hu).
      destruct (textureUnits s >=? maxTextures s); reflexivity.
Qed.

(** X9.  After [resetTextureUnits], [n] calls of [allocateTextureUnit]
    hand out the units 0, 1, ..., n-1 in this order, whatever the hardware
    maximum is; a diagnostic is written for exactly the units that reach
    or exceed [maxTextures], and nothing else is sent out or changed. *)
Theorem units_count_up_from_reset (n : nat) (s : GLTextures) :
  let r := allocations n (resetTextureUnits s) in
  r.1 = Z.of_nat <$> seq 0 n
  /\ textureUnits r.2 = Z.of_nat n
  /\ emitted s r.2
     = (fun u => Cerr (too_many_units u (maxTextures s)))
       <$> List.filter (fun u => u >=? maxTextures s) (Z.of_nat <$> seq 0 n)
  /\ textureProperties r.2 = textureProperties s
  /\ info_memory_textures r.2 = info_memory_textures s.
Proof.
  intros r. subst r.
  destruct (allocations_spec n (resetTextureUnits s))
    as (H1 & H2 & H3 & H4 & H5 & H6).
  cbn [resetTextureUnits set_textureUnits textureUnits maxTextures
       textureProperties info_memory_textures calls] in H1, H2, H3, H4, H5, H6.
  assert (Hunits : (allocations n (resetTextureUnits s)).1
                   = Z.of_nat <$> seq 0 n).
  { rewrite H1. apply list_fmap_ext. intros _ i _. lia. }
  split; [exact Hunits|]. split; [lia|]. split; [|auto].
  apply emitted_app. now rewrite H6, Hunits.
Qed.

(** ** The other targets *)

Section target_facts.
Context (convert : Z -> Z).

Lemma uploadTexture_no_image (k : string) (texture : Texture) (slot : Z)
    (s : GLTextures) :
  image texture = None -> uploadTexture convert k texture slot s = (texture, s).
Proof. unfold uploadTexture. now intros ->. Qed.

(** X10.  [setTexture2DArray] and [setTexture3D] bind the entry's handle
    to their own target only when the texture is up to date.  When it was
    modified and has an image they do exactly what [setTexture2D] does, so
    the data goes to the 2D target; when it was modified and has no image
    they return without any call at all: no diagnostic and, unlike
    [setTexture2D], no bind. *)
Theorem array_and_3D_upload_through_2D (texture : Texture) (slot : Z)
    (s : GLTextures) :
  let bind target :=
    [ ActiveTexture (to_GLuint (GL_TEXTURE0 + slot));
      BindTexture target (glTexture (entry (uuid texture) s)) ] in
  let behaves (r : Texture * GLTextures) (target : Z) :=
    if stale texture s then
      match image texture with
      | Some _ => r = setTexture2D convert texture slot s
      | None =>
          r.1 = texture /\ emitted s r.2 = []
          /\ info_memory_textures r.2 = info_memory_textures s
      end
    else r.1 = texture /\ emitted s r.2 = bind target in
  behaves (setTexture2DArray convert texture slot s) GL_TEXTURE_2D_ARRAY
  /\ behaves (setTexture3D convert texture slot s) GL_TEXTURE_3D.
Proof.
  intros bind behaves. subst behaves bind. cbv beta.
  unfold setTexture2DArray, setTexture3D, setTexture2D.
  destruct (get_spec (uuid texture) s) as (s1 & -> & Hc & Hi & _ & _).
  fold (stale texture s). destruct (stale texture s).
  - destruct (image texture) as [img|] eqn:Himg.
    + split; reflexivity.
    + rewrite (uploadTexture_no_image _ _ _ _ Himg). cbn [fst snd].
      split; split_and!; auto using emitted_nil.
  - cbn [fst snd]. split; (split; [reflexivity|]); apply emitted_app;
      now rewrite !calls_emit, Hc, <- app_assoc.
Qed.

End target_facts.

(** X11.  [setTextureCube] never uploads: for a modified texture it sends
    nothing out and leaves every entry as it reads, so the texture stays
    modified for the next call; for an up-to-date texture it binds the
    entry's handle to the cube-map target. *)
Theorem cube_textures_are_never_uploaded (texture : Texture) (slot : Z)
    (s : GLTextures) :
  let r := setTextureCube texture slot s in
  r.1 = texture
  /\ emitted s r.2
     = (if stale texture s then []
        else [ ActiveTexture (to_GLuint (GL_TEXTURE0 + slot));
               BindTexture GL_TEXTURE_CUBE_MAP
                 (glTexture (entry (uuid texture) s)) ])
  /\ (forall k, entry k r.2 = entry k s)
  /\ info_memory_textures r.2 = info_memory_textures s
  /\ stale r.1 r.2 = stale texture s.
Proof.
  intros r. subst r. unfold setTextureCube, uploadCubeTexture.
  destruct (get_spec (uuid texture) s) as (s1 & -> & Hc & Hi & _ & He).
  fold (stale texture s). destruct (stale texture s) eqn:Hstale; cbn [fst snd].
  - split_and!; auto using emitted_nil.
    unfold stale in *. now rewrite He.
  - split_and!; auto.
    + apply emitted_app. now rewrite !calls_emit, Hc, <- app_assoc.
    + unfold stale in *. rewrite !entry_emit, He. exact Hstale.
Qed.

(** ** The table outside the entry of the texture *)

Section keeps_facts.
Context (k : string) (s0 : GLTextures).

Lemma keeps_refl : keeps k s0 s0.
Proof. now intros k' _. Qed.

Lemma keeps_emit (s : GLTextures) (c : GLCall) :
  keeps k s0 s -> keeps k s0 (emit c s).
Proof. intros H k' Hk. exact (H k' Hk). Qed.

Lemma keeps_modify (s : GLTextures) (f : TextureProperties -> TextureProperties) :
  keeps k s0 s -> keeps k s0 (modify k f s).
Proof.
  intros H k' Hk. unfold modify. simpl.
  rewrite lookup_insert_ne by auto. exact (H k' Hk).
Qed.

Lemma keeps_get (s : GLTextures) :
  keeps k s0 s -> keeps k s0 (get k s).2.
Proof.
  intros H k' Hk. unfold get, GLProperties.get.
  destruct (textureProperties s !! k); simpl; [exact (H k' Hk)|].
  rewrite lookup_insert_ne by auto. exact (H k' Hk).
Qed.

Lemma keeps_setTextureParameters (s : GLTextures) (target : Z)
    (texture : Texture) :
  keeps k s0 s -> keeps k s0 (setTextureParameters target texture s).
Proof. intros H k' Hk. exact (H k' Hk). Qed.

Lemma keeps_upload_mipmaps (s : GLTextures) (i f g t : Z) (ms : list Image) :
  keeps k s0 s -> keeps k s0 (upload_mipmaps i f g t ms s).
Proof. intros H k' Hk. rewrite upload_mipmaps_eq. exact (H k' Hk). Qed.

Lemma keeps_generateMipmap (s : GLTextures) (target : Z) (texture : Texture)
    (w h : Z) :
  uuid texture = k ->
  keeps k s0 s -> keeps k s0 (generateMipmap target texture w h s).
Proof.
  intros Hu H. unfold generateMipmap. rewrite Hu.
  pose proof (keeps_get (emit (GenerateMipmap target) s) (keeps_emit _ _ H))
    as Hg.
  destruct (get k (emit (GenerateMipmap target) s)) as [tp s1].
  now apply keeps_modify.
Qed.

Lemma keeps_initTexture (s : GLTextures) (texture : Texture) :
  keeps k s0 s -> keeps k s0 (initTexture k texture s).2.
Proof.
  intros H. unfold initTexture. destruct (glInit (entry k s)); simpl negb;
    cbn [snd]; [exact H|].
  intros k' Hk. simpl. rewrite !lookup_insert_ne by auto. exact (H k' Hk).
Qed.

End keeps_facts.

Ltac keep Hu :=
  repeat lazymatch goal with
    | |- keeps _ _ (emit _ _) => apply keeps_emit
    | |- keeps _ _ (modify _ _ _) => apply keeps_modify
    | |- keeps _ _ (setTextureParameters _ _ _) =>
        apply keeps_setTextureParameters
    | |- keeps _ _ (upload_mipmaps _ _ _ _ _ _) => apply keeps_upload_mipmaps
    | |- keeps _ _ (generateMipmap _ _ _ _ _) =>
        apply keeps_generateMipmap; [exact Hu|]
    | |- keeps _ ?s ?s => apply keeps_refl
    end.

Lemma table_emit (c : GLCall) (s : GLTextures) :
  textureProperties (emit c s) = textureProperties s.
Proof. reflexivity. Qed.

Lemma modify_lookup (k : string) (f : TextureProperties -> TextureProperties)
    (s : GLTextures) :
  textureProperties (modify k f s) !! k = Some (entry k (modify k f s)).
Proof. rewrite entry_modify. unfold modify. simpl. apply lookup_insert_eq. Qed.

Lemma maxMipLevel_set_version (v : Z) (tp : TextureProperties) :
  maxMipLevel (set_version v tp) = maxMipLevel tp.
Proof. reflexivity. Qed.

Lemma maxMipLevel_set_maxMipLevel (n : Z) (tp : TextureProperties) :
  maxMipLevel (set_maxMipLevel n tp) = n.
Proof. reflexivity. Qed.

Lemma needs_after_manual (texture : Texture) :
  textureNeedsGenerateMipmaps (set_generateMipmaps false texture) = false.
Proof. reflexivity. Qed.

Lemma onUpdate_after_manual (texture : Texture) :
  onUpdate (set_generateMipmaps false texture) = onUpdate texture.
Proof. reflexivity. Qed.

Lemma uuid_after_manual (texture : Texture) :
  uuid (set_generateMipmaps false texture) = uuid texture.
Proof. reflexivity. Qed.

Lemma version_after_manual (texture : Texture) :
  version (set_generateMipmaps false texture) = version texture.
Proof. reflexivity. Qed.

Section upload_facts.
Context (convert : Z -> Z).

(** ** The whole effect of [uploadTexture] *)

Lemma uploadTexture_detail (texture : Texture) (slot : Z) (s : GLTextures)
    (img : Image) :
  image texture = Some img ->
  let k := uuid texture in
  let fresh := negb (glInit (entry k s)) in
  let r := uploadTexture convert k texture slot s in
  r.1 = after_upload fresh texture
  /\ emitted s r.2
     = (if fresh then [GenTextures (gl_next_texture s)] else [])
       ++ upload_calls convert texture slot img
            (if fresh then gl_next_texture s else glTexture (entry k s))
  /\ maxMipLevel (entry k r.2) = uploaded_maxMipLevel texture img
  /\ keeps k s r.2
  /\ textureProperties r.2 !! k = Some (entry k r.2).
Proof.
  intros Himg k fresh r. subst r.
  unfold uploadTexture, after_upload, upload_calls, uploaded_maxMipLevel.
  rewrite Himg.
  pose proof (keeps_initTexture k s s texture (keeps_refl k s)) as Hk1.
  destruct (initTexture_spec k texture s)
    as (t1 & s1 & Einit & Ht1 & Hc1 & Hi1 & Hg1 & Hh1).
  rewrite Einit in Hk1 |- *. clear Einit.
  cbn [snd] in Hk1. fold fresh in Ht1, Hc1, Hi1, Hh1 |- *.
  rewrite <- Ht1.
  assert (Hu : uuid t1 = k) by (subst t1; now destruct fresh).
  assert (E1 : mipmaps t1 = mipmaps texture) by (subst t1; now destruct fresh).
  assert (E2 : textureNeedsGenerateMipmaps t1
               = textureNeedsGenerateMipmaps texture)
    by (subst t1; now destruct fresh).
  assert (E3 : onUpdate t1 = onUpdate texture) by (subst t1; now destruct fresh).
  assert (E4 : format t1 = format texture) by (subst t1; now destruct fresh).
  assert (E5 : type t1 = type texture) by (subst t1; now destruct fresh).
  assert (E6 : unpackAlignment t1 = unpackAlignment texture)
    by (subst t1; now destruct fresh).
  assert (E7 : wrapS t1 = wrapS texture) by (subst t1; now destruct fresh).
  assert (E8 : wrapT t1 = wrapT texture) by (subst t1; now destruct fresh).
  assert (E9 : magFilter t1 = magFilter texture) by (subst t1; now destruct fresh).
  assert (E10 : minFilter t1 = minFilter texture)
    by (subst t1; now destruct fresh).
  clear Ht1. rewrite E1.
  destruct (mipmaps texture) as [|m ms]; cbn [length Nat.ltb Nat.leb];
    rewrite ?needs_after_manual, ?onUpdate_after_manual, ?E2, ?E3;
    destruct (textureNeedsGenerateMipmaps texture), (onUpdate texture);
    cbn [fst snd];
    (split; [reflexivity|]);
    match goal with
    | |- emitted s ?F = _ /\ _ =>
        eassert (Htr : tracks k s1 F _) by track;
        destruct Htr as (Hc & _);
        assert (Hkeep : keeps k s1 F) by (keep Hu)
    end;
    (split; [apply emitted_app; rewrite Hc, Hc1, <- app_assoc; do 2 f_equal;
             rewrite ?entry_emit, ?calls_setTextureParameters, Hh1, ?Hu,
               ?uuid_after_manual, ?Hu, ?E4, ?E5, ?E6, ?E7, ?E8, ?E9, ?E10,
               ?app_nil_r;
             reflexivity|]);
    (split; [rewrite ?entry_emit, entry_modify, maxMipLevel_set_version,
               ?entry_generateMipmap, ?Hu, ?decide_True by reflexivity;
             rewrite ?entry_modify; reflexivity|]);
    (split; [intros k' Hk'; rewrite (Hkeep k' Hk'); exact (Hk1 k' Hk')|]);
    rewrite ?table_emit, ?entry_emit; exact (modify_lookup _ _ _).
Qed.

End upload_facts.

Lemma keeps_trans (k : string) (s1 s2 s3 : GLTextures) :
  keeps k s1 s2 -> keeps k s2 s3 -> keeps k s1 s3.
Proof. intros H12 H23 k' Hk. rewrite (H23 k' Hk). exact (H12 k' Hk). Qed.

Lemma after_upload_uuid (fresh : bool) (texture : Texture) :
  uuid (after_upload fresh texture) = uuid texture.
Proof. unfold after_upload. now destruct fresh, (mipmaps texture). Qed.

Lemma after_upload_version (fresh : bool) (texture : Texture) :
  version (after_upload fresh texture) = version texture.
Proof. unfold after_upload. now destruct fresh, (mipmaps texture). Qed.

Lemma mipmap_calls_imap (i f g t : Z) (ms : list Image) :
  mipmap_calls i f g t ms
  = imap (fun j m => TexImage2D GL_TEXTURE_2D (i + Z.of_nat j) f
                       (width m) (height m) g t) ms.
Proof.
  revert i. induction ms as [|m ms IH]; intros i; [reflexivity|].
  cbn [mipmap_calls]. rewrite imap_cons, IH, Z.add_0_r. f_equal.
  apply imap_ext. intros j x _. simpl. f_equal. lia.
Qed.

Lemma filter_mipmap_calls (i f g t : Z) (ms : list Image) :
  List.filter is_TexImage2D (mipmap_calls i f g t ms) = mipmap_calls i f g t ms.
Proof.
  revert i. induction ms as [|m ms IH]; intros i; [reflexivity|].
  simpl. now rewrite IH.
Qed.

Lemma not_in_mipmap_calls (c : GLCall) (i f g t : Z) (ms : list Image) :
  is_TexImage2D c = false -> c ∉ mipmap_calls i f g t ms.
Proof.
  intros Hc. revert i. induction ms as [|m ms IH]; intros i H;
    [inversion H|].
  simpl in H. apply elem_of_cons in H as [->|H]; [discriminate|].
  exact (IH _ H).
Qed.

(** The counting of allocated entries when one entry is written. *)
Lemma allocated_insert (m : gmap string TextureProperties) (k : string)
    (e : TextureProperties) :
  let P := fun kv : string * TextureProperties => glInit kv.2 = true in
  (size (filter P (<[k := e]> m))
   + (if glInit (default TextureProperties_default (m !! k)) then 1 else 0))%nat
  = (size (filter P m) + (if glInit e then 1 else 0))%nat.
Proof.
  intros P.
  assert (Hold : forall t, filter P m !! k = Some t ->
                           glInit (default TextureProperties_default (m !! k)) = true).
  { intros t Ht. apply map_lookup_filter_Some in Ht as [-> Hp]. exact Hp. }
  assert (Hnew : filter P m !! k = None ->
                 glInit (default TextureProperties_default (m !! k)) = false).
  { intros Hn. destruct (m !! k) as [t|] eqn:Hm; [|reflexivity]. simpl.
    destruct (glInit t) eqn:Hg; [|reflexivity].
    assert (filter P m !! k = Some t) by (now apply map_lookup_filter_Some).
    congruence. }
  destruct (glInit e) eqn:He.
  - rewrite map_filter_insert_True by exact He. rewrite map_size_insert.
    destruct (filter P m !! k) as [t|] eqn:Hf.
    + rewrite (Hold t eq_refl). simpl. lia.
    + rewrite (Hnew eq_refl). simpl. lia.
  - rewrite map_filter_insert_False by (unfold P; simpl; congruence).
    rewrite map_filter_delete, map_size_delete.
    destruct (filter P m !! k) as [t|] eqn:Hf.
    + rewrite (Hold t eq_refl).
      pose proof (map_size_ne_0_lookup_2 (filter P m) k (mk_is_Some _ _ Hf)).
      simpl. lia.
    + rewrite (Hnew eq_refl). simpl. lia.
Qed.

Lemma allocated_written (k : string) (s s' : GLTextures) :
  keeps k s s' ->
  textureProperties s' !! k = Some (entry k s') ->
  (allocated s' + (if glInit (entry k s) then 1 else 0))%nat
  = (allocated s + (if glInit (entry k s') then 1 else 0))%nat.
Proof.
  intros Hkeep Hlook.
  assert (Htable : textureProperties s'
                   = <[k := entry k s']> (textureProperties s)).
  { apply map_eq. intros k'. destruct (decide (k' = k)) as [->|Hne].
    - now rewrite lookup_insert_eq.
    - rewrite lookup_insert_ne by auto. now apply Hkeep. }
  unfold allocated. rewrite Htable at 1. apply allocated_insert.
Qed.

Lemma onEvent_unallocated (texture : Texture) (s : GLTextures) :
  glInit (entry (uuid texture) s) = false ->
  (onEvent texture s).2
  = set_info_memory_textures (info_memory_textures s - 1)
      (get (uuid texture) s).2.
Proof.
  intros Hinit. unfold onEvent, deallocateTexture.
  cbn [uuid set_disposeListener].
  destruct (get_spec (uuid texture) s) as (s1 & E & _ & Hi & _).
  rewrite E, Hinit. cbn [negb fst snd]. now rewrite Hi.
Qed.

Section upload_properties.
Context (convert : Z -> Z).

Lemma setTexture2D_detail (texture : Texture) (slot : Z) (s : GLTextures)
    (img : Image) :
  stale texture s = true -> image texture = Some img ->
  let k := uuid texture in
  let fresh := negb (glInit (entry k s)) in
  let r := setTexture2D convert texture slot s in
  r.1 = after_upload fresh texture
  /\ emitted s r.2
     = (if fresh then [GenTextures (gl_next_texture s)] else [])
       ++ upload_calls convert texture slot img
            (if fresh then gl_next_texture s else glTexture (entry k s))
  /\ maxMipLevel (entry k r.2) = uploaded_maxMipLevel texture img
  /\ keeps k s r.2
  /\ textureProperties r.2 !! k = Some (entry k r.2).
Proof.
  intros Hstale Himg k fresh r. subst r k fresh. unfold setTexture2D.
  pose proof (keeps_get (uuid texture) s s (keeps_refl _ s)) as Hk.
  destruct (get_spec (uuid texture) s) as (s1 & E & Hc & Hi & Hn & He).
  rewrite E in Hk |- *. cbn [snd] in Hk.
  fold (stale texture s). rewrite Hstale, Himg.
  destruct (uploadTexture_detail convert texture slot s1 img Himg)
    as (H1 & H2 & H3 & H4 & H5).
  rewrite (He (uuid texture)) in H1, H2. rewrite Hn in H2.
  split; [exact H1|]. split; [|split; [exact H3|split; [|exact H5]]].
  - unfold emitted in H2 |- *. now rewrite <- Hc.
  - now apply (keeps_trans _ _ s1).
Qed.

Lemma setTexture2D_bind_entries (texture : Texture) (slot : Z) (s : GLTextures) :
  stale texture s = true /\ image texture = None \/ stale texture s = false ->
  let r := setTexture2D convert texture slot s in
  r.1 = texture
  /\ info_memory_textures r.2 = info_memory_textures s
  /\ (forall k, entry k r.2 = entry k s)
  /\ keeps (uuid texture) s r.2
  /\ textureProperties r.2 !! uuid texture = Some (entry (uuid texture) r.2).
Proof.
  intros Hcase r. subst r. unfold setTexture2D.
  pose proof (keeps_get (uuid texture) s s (keeps_refl _ s)) as Hk.
  pose proof (get_lookup (uuid texture) s) as Hl.
  destruct (get_spec (uuid texture) s) as (s1 & E & Hc & Hi & Hn & He).
  rewrite E in Hk, Hl |- *. cbn [snd] in Hk, Hl.
  fold (stale texture s).
  destruct Hcase as [[-> ->] | ->]; cbn [fst snd];
    rewrite !info_emit, !table_emit; split_and!; auto;
    try (intros k; rewrite !entry_emit; apply He);
    rewrite !entry_emit, He; exact Hl.
Qed.

(** X12.  The calls of an upload are made in a fixed order: when the entry
    has no handle yet one is generated first; then the slot is made
    active, the handle bound to the 2D target, the unpack alignment and the
    four wrap and filter parameters set; then come the image uploads, and
    last the update callback if the texture has one.  The texture comes
    back with its listener registered if the handle was new. *)
Theorem upload_calls_in_order (texture : Texture) (slot : Z) (s : GLTextures)
    (img : Image) :
  stale texture s = true -> image texture = Some img ->
  let k := uuid texture in
  let fresh := negb (glInit (entry k s)) in
  let r := setTexture2D convert texture slot s in
  emitted s r.2
  = (if fresh then [GenTextures (gl_next_texture s)] else [])
    ++ upload_calls convert texture slot img
         (if fresh then gl_next_texture s else glTexture (entry k s))
  /\ r.1 = after_upload fresh texture.
Proof.
  intros Hstale Himg k fresh r.
  destruct (setTexture2D_detail texture slot s img Hstale Himg)
    as (H1 & H2 & _). auto.
Qed.

(** X13.  With manual mipmaps, an upload sends one image per mipmap, the
    i-th at level i with the size of the i-th mipmap, and no other image;
    it never asks the GL to generate mipmaps, it switches the texture's
    generateMipmaps flag off, and it records the last level as the highest
    mip level. *)
Theorem manual_mipmaps_are_uploaded_level_by_level
    (texture : Texture) (slot : Z) (s : GLTextures) (img : Image) :
  stale texture s = true -> image texture = Some img ->
  mipmaps texture <> [] ->
  let r := setTexture2D convert texture slot s in
  let glFormat := convert (format texture) in
  let glType := convert (type texture) in
  List.filter is_TexImage2D (emitted s r.2)
  = imap (fun i m =>
            TexImage2D GL_TEXTURE_2D (Z.of_nat i)
              (getInternalFormat glFormat glType) (width m) (height m)
              glFormat glType)
      (mipmaps texture)
  /\ (GenerateMipmap GL_TEXTURE_2D ∉ emitted s r.2)
  /\ generateMipmaps r.1 = false
  /\ maxMipLevel (entry (uuid texture) r.2)
     = Z.of_nat (length (mipmaps texture)) - 1.
Proof.
  intros Hstale Himg Hms r glFormat glType.
  destruct (setTexture2D_detail texture slot s img Hstale Himg)
    as (H1 & H2 & H3 & _).
  fold r in H1, H2, H3. rewrite H1, H2, H3.
  unfold after_upload, upload_calls, uploaded_maxMipLevel.
  fold glFormat glType.
  destruct (mipmaps texture) as [|m ms] eqn:Em; [contradiction|].
  split; [|split; [|split; [now destruct (negb _) | reflexivity]]].
  - rewrite <- (mipmap_calls_imap 0), !List.filter_app, filter_mipmap_calls.
    destruct (negb _), (onUpdate texture); cbn [List.filter is_TexImage2D app];
      now rewrite app_nil_r.
  - rewrite !elem_of_app. intros [H | [H | [H | H]]].
    + destruct (negb _); [apply list_elem_of_singleton in H; discriminate
                         | inversion H].
    + repeat (apply elem_of_cons in H as [H|H]; [discriminate|]).
      inversion H.
    + revert H. now apply not_in_mipmap_calls.
    + destruct (onUpdate texture); [apply list_elem_of_singleton in H; discriminate
                                   | inversion H].
Qed.

(** X14.  Without manual mipmaps, an upload sends exactly one image, at
    level 0 with the size of the texture's image; it asks the GL to
    generate mipmaps exactly when generateMipmaps is set and the
    minification filter is neither NearestFilter nor LinearFilter; it then
    records the integer part of [log2 (max width height)] as the highest
    mip level, for an image of at least one pixel in one direction, and it
    records 0 when it does not ask. *)
Theorem plain_upload_generates_mipmaps_when_filtered
    (texture : Texture) (slot : Z) (s : GLTextures) (img : Image) :
  stale texture s = true -> image texture = Some img ->
  mipmaps texture = [] ->
  let r := setTexture2D convert texture slot s in
  let glFormat := convert (format texture) in
  let glType := convert (type texture) in
  let wanted :=
    generateMipmaps texture = true
    /\ minFilter texture <> NearestFilter
    /\ minFilter texture <> LinearFilter in
  List.filter is_TexImage2D (emitted s r.2)
  = [ TexImage2D GL_TEXTURE_2D 0 (getInternalFormat glFormat glType)
        (width img) (height img) glFormat glType ]
  /\ (GenerateMipmap GL_TEXTURE_2D ∈ emitted s r.2 <-> wanted)
  /\ (wanted -> 1 <= Z.max (width img) (height img) ->
      let level := maxMipLevel (entry (uuid texture) r.2) in
      2 ^ level <= Z.max (width img) (height img) < 2 ^ (level + 1))
  /\ (~ wanted -> maxMipLevel (entry (uuid texture) r.2) = 0)
  /\ generateMipmaps r.1 = generateMipmaps texture.
Proof.
  intros Hstale Himg Hms r glFormat glType wanted.
  destruct (setTexture2D_detail texture slot s img Hstale Himg)
    as (H1 & H2 & H3 & _).
  fold r in H1, H2, H3. rewrite H1, H2, H3.
  unfold after_upload, upload_calls, uploaded_maxMipLevel.
  fold glFormat glType. rewrite Hms.
  assert (Hw : textureNeedsGenerateMipmaps texture = true <-> wanted).
  { unfold textureNeedsGenerateMipmaps, wanted.
    rewrite !andb_true_iff, !negb_true_iff, !Z.eqb_neq. tauto. }
  split; [|split; [|split; [|split]]].
  - rewrite !List.filter_app.
    destruct (negb _), (textureNeedsGenerateMipmaps texture),
      (onUpdate texture); reflexivity.
  - rewrite <- Hw. rewrite !elem_of_app. split.
    + intros [H | [H | [H | H]]].
      * destruct (negb _); [apply list_elem_of_singleton in H; discriminate
                           | inversion H].
      * repeat (apply elem_of_cons in H as [H|H]; [discriminate|]).
        inversion H.
      * apply elem_of_cons in H as [H|H]; [discriminate|].
        destruct (textureNeedsGenerateMipmaps texture);
          [reflexivity | inversion H].
      * destruct (onUpdate texture);
          [apply list_elem_of_singleton in H; discriminate | inversion H].
    + intros ->. right. right. left. rewrite !elem_of_cons. auto.
  - intros H Hsize. apply Hw in H. rewrite H. cbv zeta.
    rewrite Z.add_1_r. apply Z.log2_spec. lia.
  - intros H. destruct (textureNeedsGenerateMipmaps texture) eqn:E;
      [|reflexivity]. destruct H. now apply Hw.
  - now destruct (negb _).
Qed.

(** X15.  Binding a texture that has an image a second time only binds:
    whatever the first [setTexture2D] did, a second one with the texture
    it returned sends out the activation of the slot and the bind of the
    entry's handle, nothing else: no allocation, no upload; and the
    live-texture counter is unchanged. *)
Theorem rebinding_only_binds (texture : Texture) (slot slot' : Z)
    (s : GLTextures) :
  is_Some (image texture) ->
  let r := setTexture2D convert texture slot s in
  let r' := setTexture2D convert r.1 slot' r.2 in
  r'.1 = r.1
  /\ emitted r.2 r'.2
     = [ ActiveTexture (to_GLuint (GL_TEXTURE0 + slot'));
         BindTexture GL_TEXTURE_2D (glTexture (entry (uuid texture) r.2)) ]
  /\ info_memory_textures r'.2 = info_memory_textures r.2.
Proof.
  intros [img Himg] r r'.
  assert (Hfix : uuid r.1 = uuid texture /\ stale r.1 r.2 = false).
  { destruct (stale texture s) eqn:Hstale.
    - destruct (setTexture2D_detail texture slot s img Hstale Himg)
        as (H1 & _).
      destruct (setTexture2D_upload convert texture slot s img Hstale Himg)
        as (_ & _ & _ & _ & Hv & _).
      fold r in H1, Hv. unfold stale.
      rewrite H1, after_upload_uuid, after_upload_version, Hv, Z.eqb_refl.
      split; [reflexivity | apply andb_false_r].
    - destruct (setTexture2D_bind_entries texture slot s (or_intror Hstale))
        as (H1 & _ & He & _).
      fold r in H1, He. unfold stale in *. rewrite H1, He. auto. }
  destruct Hfix as [Hu Hst].
  destruct (setTexture2D_bind convert r.1 slot' r.2 Hst) as (H1 & H2 & H3).
  fold r' in H1, H2, H3. rewrite Hu in H2. auto.
Qed.

(** X16.  [setTexture2D] writes no entry but the one of its texture, and
    it always leaves an entry for that texture in the table, also when it
    only binds. *)
Theorem setTexture2D_writes_own_entry_only (texture : Texture) (slot : Z)
    (s : GLTextures) :
  let r := setTexture2D convert texture slot s in
  keeps (uuid texture) s r.2
  /\ is_Some (textureProperties r.2 !! uuid texture).
Proof.
  intros r.
  assert (H : keeps (uuid texture) s r.2
              /\ textureProperties r.2 !! uuid texture
                 = Some (entry (uuid texture) r.2)).
  { destruct (stale texture s) eqn:Hstale;
      [destruct (image texture) as [img|] eqn:Himg|].
    - destruct (setTexture2D_detail texture slot s img Hstale Himg)
        as (_ & _ & _ & H4 & H5). auto.
    - destruct (setTexture2D_bind_entries texture slot s
                  (or_introl (conj Hstale Himg))) as (_ & _ & _ & H4 & H5).
      auto.
    - destruct (setTexture2D_bind_entries texture slot s (or_intror Hstale))
        as (_ & _ & _ & H4 & H5). auto. }
  destruct H as [H1 H2]. split; [exact H1 | rewrite H2; eauto].
Qed.

(** X17.  The live-texture counter moves with the number of allocated
    entries: [setTexture2D] changes both by the same amount, and so does
    the handling of a dispose notification for a texture whose entry has
    a handle; for a texture whose entry has none, the counter alone goes
    down by 1. *)
Theorem counter_follows_allocated_entries (texture : Texture) (slot : Z)
    (s : GLTextures) :
  let gap (s : GLTextures) := info_memory_textures s - Z.of_nat (allocated s) in
  gap (setTexture2D convert texture slot s).2 = gap s
  /\ gap (onEvent texture s).2
     = gap s - (if glInit (entry (uuid texture) s) then 0 else 1).
Proof.
  intros gap. subst gap. cbv beta. split.
  - set (r := setTexture2D convert texture slot s).
    assert (H : keeps (uuid texture) s r.2
                /\ textureProperties r.2 !! uuid texture
                   = Some (entry (uuid texture) r.2)
                /\ info_memory_textures r.2
                   = info_memory_textures s
                     + (if glInit (entry (uuid texture) s) then 0 else 1)
                       * (if glInit (entry (uuid texture) r.2) then 1 else 0)
                /\ (glInit (entry (uuid texture) s) = true ->
                    glInit (entry (uuid texture) r.2) = true)).
    { destruct (stale texture s) eqn:Hstale;
        [destruct (image texture) as [img|] eqn:Himg|].
      - destruct (setTexture2D_detail texture slot s img Hstale Himg)
          as (_ & _ & _ & H4 & H5).
        destruct (setTexture2D_upload convert texture slot s img Hstale Himg)
          as (_ & Hi & Hg & _).
        fold r in H4, H5, Hi, Hg. rewrite Hg, Hi.
        split_and!; auto.
        destruct (glInit (entry (uuid texture) s)); simpl; lia.
      - destruct (setTexture2D_bind_entries texture slot s
                    (or_introl (conj Hstale Himg))) as (_ & Hi & He & H4 & H5).
        fold r in Hi, He, H4, H5.
        split_and!; [exact H4 | exact H5 | | now rewrite He].
        rewrite He, Hi.
        destruct (glInit (entry (uuid texture) s)); simpl; lia.
      - destruct (setTexture2D_bind_entries texture slot s (or_intror Hstale))
          as (_ & Hi & He & H4 & H5).
        fold r in Hi, He, H4, H5.
        split_and!; [exact H4 | exact H5 | | now rewrite He].
        rewrite He, Hi.
        destruct (glInit (entry (uuid texture) s)); simpl; lia. }
    destruct H as (Hk & Hl & Hi & Hmono).
    pose proof (allocated_written _ _ _ Hk Hl) as Ha. rewrite Hi.
    destruct (glInit (entry (uuid texture) s));
      [rewrite (Hmono eq_refl) in Ha |- *|];
      destruct (glInit (entry (uuid texture) r.2)); simpl in *; lia.
  - destruct (glInit (entry (uuid texture) s)) eqn:Hinit.
    + assert (Hsome : exists tp, textureProperties s !! uuid texture = Some tp
                                 /\ glInit tp = true).
      { unfold entry in Hinit.
        destruct (textureProperties s !! uuid texture) as [tp|];
          [eauto | discriminate]. }
      destruct Hsome as (tp & Htp & Hg).
      destruct (onEvent_allocated texture s tp Htp Hg)
        as (Hi & _ & Ht & _).
      rewrite Hi. unfold allocated. rewrite Ht.
      rewrite map_filter_delete, map_size_delete.
      assert (Hf : filter (fun kv : string * TextureProperties =>
                             glInit kv.2 = true) (textureProperties s)
                   !! uuid texture = Some tp)
        by (now apply map_lookup_filter_Some).
      rewrite Hf.
      pose proof (map_size_ne_0_lookup_2 _ _ (mk_is_Some _ _ Hf)). lia.
    + rewrite (onEvent_unallocated texture s Hinit), info_set_info_eq.
      pose proof (keeps_get (uuid texture) s s (keeps_refl _ s)) as Hk.
      pose proof (get_lookup (uuid texture) s) as Hl.
      destruct (get_spec (uuid texture) s) as (s1 & E & _ & _ & _ & He).
      rewrite E in Hk, Hl |- *. cbn [snd] in Hk, Hl |- *.
      rewrite <- (He (uuid texture)) in Hl.
      pose proof (allocated_written _ _ _ Hk Hl) as Ha.
      rewrite He in Ha.
      assert (Hsame : allocated (set_info_memory_textures
                                   (info_memory_textures s - 1) s1)
                      = allocated s1) by reflexivity.
      rewrite Hsame. lia.
Qed.

End upload_properties.

Lemma upload_calls_in_order_witness :
  let s := empty_manager in
  let r := setTexture2D convert_rgba8 pyramid 0 s in
  emitted s r.2
  = [GenTextures 2] ++ upload_calls convert_rgba8 pyramid 0 pixels 2
  /\ r.1 = after_upload true pyramid.
Proof.
  intros s r.
  apply (upload_calls_in_order convert_rgba8 pyramid 0 s pixels);
    reflexivity.
Defined.

Lemma manual_mipmaps_are_uploaded_level_by_level_witness :
  let s := empty_manager in
  let r := setTexture2D convert_rgba8 pyramid 0 s in
  List.filter is_TexImage2D (emitted s r.2)
  = [ TexImage2D GL_TEXTURE_2D 0 GL_RGBA8 4 4 GL_RGBA GL_UNSIGNED_BYTE;
      TexImage2D GL_TEXTURE_2D 1 GL_RGBA8 2 2 GL_RGBA GL_UNSIGNED_BYTE;
      TexImage2D GL_TEXTURE_2D 2 GL_RGBA8 1 1 GL_RGBA GL_UNSIGNED_BYTE ]
  /\ (GenerateMipmap GL_TEXTURE_2D ∉ emitted s r.2)
  /\ generateMipmaps r.1 = false
  /\ maxMipLevel (entry "pyramid" r.2) = 2.
Proof.
  intros s r.
  apply (manual_mipmaps_are_uploaded_level_by_level
           convert_rgba8 pyramid 0 s pixels);
    [reflexivity | reflexivity | discriminate].
Defined.

Lemma plain_upload_generates_mipmaps_when_filtered_witness :
  let s := one_texture 1 in
  let texture := checker 3 (Some pixels) in
  let r := setTexture2D convert_rgba8 texture 0 s in
  let wanted :=
    generateMipmaps texture = true
    /\ minFilter texture <> NearestFilter
    /\ minFilter texture <> LinearFilter in
  List.filter is_TexImage2D (emitted s r.2)
  = [ TexImage2D GL_TEXTURE_2D 0 GL_RGBA8 4 4 GL_RGBA GL_UNSIGNED_BYTE ]
  /\ (GenerateMipmap GL_TEXTURE_2D ∈ emitted s r.2 <-> wanted)
  /\ (wanted -> 1 <= Z.max (width pixels) (height pixels) ->
      let level := maxMipLevel (entry "checker" r.2) in
      2 ^ level <= Z.max (width pixels) (height pixels) < 2 ^ (level + 1))
  /\ (~ wanted -> maxMipLevel (entry "checker" r.2) = 0)
  /\ generateMipmaps r.1 = true.
Proof.
  intros s texture r wanted.
  apply (plain_upload_generates_mipmaps_when_filtered
           convert_rgba8 texture 0 s pixels);
    reflexivity.
Defined.

Lemma rebinding_only_binds_witness :
  let s := one_texture 1 in
  let r := setTexture2D convert_rgba8 (checker 3 (Some pixels)) 0 s in
  let r' := setTexture2D convert_rgba8 r.1 5 r.2 in
  r'.1 = r.1
  /\ emitted r.2 r'.2
     = [ ActiveTexture (to_GLuint (GL_TEXTURE0 + 5));
         BindTexture GL_TEXTURE_2D (glTexture (entry "checker" r.2)) ]
  /\ info_memory_textures r'.2 = info_memory_textures r.2.
Proof.
  intros s r r'.
  apply (rebinding_only_binds convert_rgba8 (checker 3 (Some pixels)) 0 5 s).
  exact (mk_is_Some _ pixels eq_refl).
Defined.

End TextureFacts.

Module RenderListFacts.
Import GLRenderLists RenderListSpec.

(** ** Float comparison *)

Lemma SFcompare_antisym (x y : spec_float) :
  SFcompare y x = CompOpp <$> SFcompare x y.
Proof.
  destruct x as [sx|sx| |sx mx ex], y as [sy|sy| |sy my ey]; simpl;
    try reflexivity;
    try (destruct sx; reflexivity); try (destruct sy; reflexivity);
    try (destruct sx, sy; reflexivity).
  destruct sx, sy; simpl; try reflexivity;
    rewrite (Z.compare_antisym ex ey); destruct (ex ?= ey); simpl;
    try reflexivity; f_equal.
  - now rewrite (Pos.compare_cont_antisym mx my Eq).
  - exact (eq_sym (Pos.compare_cont_antisym mx my Eq)).
Qed.

Lemma SFgtb_asym (x y : spec_float) : SFgtb x y = true -> SFgtb y x = false.
Proof.
  unfold SFgtb. rewrite (SFcompare_antisym x y).
  destruct (SFcompare x y) as [[]|]; simpl; congruence.
Qed.

Lemma SFgtb_irrefl (x : spec_float) : SFgtb x x = false.
Proof.
  destruct (SFgtb x x) eqn:E; [|reflexivity].
  now rewrite (SFgtb_asym _ _ E) in E.
Qed.

Lemma SFneqb_sym (x y : spec_float) : SFneqb x y = SFneqb y x.
Proof.
  unfold SFneqb, SFeqb. rewrite (SFcompare_antisym y x).
  destruct (SFcompare y x) as [[]|]; reflexivity.
Qed.

(** ** The model of [std::stable_sort] *)

Section stable_sort_facts.
Context {A : Type} (comp : A -> A -> option bool).

Lemma insert_sorted_perm (x : A) (l r : list A) :
  insert_sorted comp x l = Some r -> r ≡ₚ x :: l.
Proof.
  revert r. induction l as [|y l IH]; simpl; intros r H.
  - now inversion H.
  - destruct (comp y x) as [[]|]; try discriminate.
    + destruct (insert_sorted comp x l) as [r'|]; [|discriminate].
      inversion H; subst. rewrite (IH r' eq_refl). apply Permutation_swap.
    + now inversion H.
Qed.

Lemma stable_sort_perm (l r : list A) :
  stable_sort comp l = Some r -> r ≡ₚ l.
Proof.
  revert r. induction l as [|x l IH]; simpl; intros r H.
  - now inversion H.
  - destruct (stable_sort comp l) as [s|]; [|discriminate].
    rewrite (insert_sorted_perm _ _ _ H). now rewrite (IH s eq_refl).
Qed.

Lemma insert_sorted_is_Some (x : A) (l : list A) :
  (forall y, y ∈ l -> is_Some (comp y x)) -> is_Some (insert_sorted comp x l).
Proof.
  induction l as [|y l IH]; simpl; intros H; [eauto|].
  destruct (H y) as [[] Hy]; [left| |]; rewrite Hy; [|eauto].
  destruct IH as [r Hr]; [|rewrite Hr; eauto].
  intros y' Hy'. apply H. now right.
Qed.

Lemma stable_sort_is_Some (l : list A) :
  (forall x y, x ∈ l -> y ∈ l -> is_Some (comp x y)) ->
  is_Some (stable_sort comp l).
Proof.
  induction l as [|x l IH]; simpl; intros H; [eauto|].
  destruct IH as [s Hs]; [intros; apply H; now right|]. rewrite Hs.
  apply insert_sorted_is_Some. intros y Hy. apply H; [|left].
  right. now rewrite <- (stable_sort_perm _ _ Hs).
Qed.

Lemma insert_sorted_head (x : A) (l r : list A) :
  insert_sorted comp x l = Some r ->
  head r = Some x \/ (head r = head l /\ exists y, head l = Some y /\ comp y x = Some true).
Proof.
  destruct l as [|y l]; simpl; intros H; [inversion H; now left|].
  destruct (comp y x) as [[]|] eqn:E; try discriminate.
  - destruct (insert_sorted comp x l); inversion H; subst. right. eauto.
  - inversion H. now left.
Qed.

Lemma ordered_cons (x : A) (l : list A) :
  ordered comp (x :: l)
  <-> match head l with Some y => comp y x = Some false | None => True end
      /\ ordered comp l.
Proof. destruct l; reflexivity. Qed.

Lemma insert_sorted_ordered (x : A) (l r : list A) :
  asymmetric comp ->
  ordered comp l -> insert_sorted comp x l = Some r -> ordered comp r.
Proof.
  intros Hasym. revert r. induction l as [|y l IH]; intros r Hl H.
  - inversion H. simpl. auto.
  - simpl in H. destruct (comp y x) as [[]|] eqn:E; try discriminate.
    + destruct (insert_sorted comp x l) as [r'|] eqn:Er; [|discriminate].
      inversion H; subst. apply ordered_cons in Hl as [Hy Hl].
      apply ordered_cons. split; [|now apply IH].
      destruct (insert_sorted_head _ _ _ Er) as [-> | [-> _]];
        [now apply Hasym | exact Hy].
    + inversion H; subst. apply ordered_cons. simpl. auto.
Qed.

Lemma stable_sort_ordered (l r : list A) :
  asymmetric comp -> stable_sort comp l = Some r -> ordered comp r.
Proof.
  intros Hasym. revert r. induction l as [|x l IH]; simpl; intros r H.
  - now inversion H.
  - destruct (stable_sort comp l) as [s|]; [|discriminate].
    eapply insert_sorted_ordered; eauto.
Qed.

Lemma stable_sort_of_ordered (l : list A) :
  ordered comp l -> stable_sort comp l = Some l.
Proof.
  induction l as [|x l IH]; [reflexivity|].
  intros H. apply ordered_cons in H as [Hx Hl]. simpl. rewrite (IH Hl).
  destruct l as [|y l]; [reflexivity|]. simpl in *. now rewrite Hx.
Qed.

Lemma stable_sort_idempotent (l r : list A) :
  asymmetric comp -> stable_sort comp l = Some r -> stable_sort comp r = Some r.
Proof. intros. apply stable_sort_of_ordered. eapply stable_sort_ordered; eauto. Qed.

(** Elements none of which goes strictly before another keep their order. *)
Lemma insert_sorted_filter (P : A -> bool) (x : A) (l r : list A) :
  (forall y, P y = true -> P x = true -> comp y x <> Some true) ->
  insert_sorted comp x l = Some r ->
  List.filter P r = List.filter P (x :: l).
Proof.
  intros HP. revert r. induction l as [|y l IH]; intros r H; simpl in H.
  - now inversion H.
  - destruct (comp y x) as [[]|] eqn:E; try discriminate.
    + destruct (insert_sorted comp x l) as [r'|]; [|discriminate].
      inversion H; subst. simpl. rewrite (IH r' eq_refl). simpl.
      destruct (P y) eqn:Py, (P x) eqn:Px; try reflexivity.
      now destruct (HP y Py eq_refl).
    + now inversion H.
Qed.

Lemma stable_sort_filter (P : A -> bool) (l r : list A) :
  (forall x y, P x = true -> P y = true -> comp x y <> Some true) ->
  stable_sort comp l = Some r ->
  List.filter P r = List.filter P l.
Proof.
  intros HP. revert r. induction l as [|x l IH]; intros r H; simpl in H.
  - now inversion H.
  - destruct (stable_sort comp l) as [s|]; [|discriminate].
    rewrite (insert_sorted_filter P x s r); [|intros; now apply HP|exact H].
    simpl. now rewrite (IH s eq_refl).
Qed.

End stable_sort_facts.

(** ** The model against the contract of the library *)

Section stable_sort_contract.
Context {A : Type} (comp : A -> A -> option bool).

(** In a strict weak ordering "does not go before" is transitive. *)
Lemma strict_weak_not_before (l : list A) (x y z : A) :
  strict_weak_on comp l -> x ∈ l -> y ∈ l -> z ∈ l ->
  comp y x = Some false -> comp z y = Some false -> comp z x = Some false.
Proof.
  intros Hs Hx Hy Hz Hyx Hzy.
  destruct (swo_total _ _ Hs z x Hz Hx) as [[] Hzx]; [|exact Hzx].
  exfalso.
  destruct (swo_total _ _ Hs x y Hx Hy) as [[] Hxy].
  { pose proof (swo_trans _ _ Hs z x y Hz Hx Hy Hzx Hxy). congruence. }
  destruct (swo_total _ _ Hs y z Hy Hz) as [[] Hyz].
  { pose proof (swo_trans _ _ Hs y z x Hy Hz Hx Hyz Hzx). congruence. }
  destruct (swo_equiv _ _ Hs x y z Hx Hy Hz) as [_ H]; [split; auto..|].
  congruence.
Qed.

Lemma ordered_StronglySorted (l r : list A) :
  strict_weak_on comp l -> (forall x, x ∈ r -> x ∈ l) ->
  ordered comp r ->
  StronglySorted (fun x y => comp y x = Some false) r.
Proof.
  intros Hs. induction r as [|x r IH]; intros Hin Hr; [constructor|].
  apply ordered_cons in Hr as [Hx Hr].
  assert (Hin' : forall y, y ∈ r -> y ∈ l) by (intros; apply Hin; now right).
  specialize (IH Hin' Hr). constructor; [exact IH|].
  destruct r as [|y r]; [constructor|]. simpl in Hx.
  apply StronglySorted_inv in IH as [_ Hy].
  constructor; [exact Hx|].
  rewrite List.Forall_forall in Hy |- *. intros z' Hz'.
  apply (strict_weak_not_before l x y z' Hs).
  - apply Hin. left.
  - apply Hin'. left.
  - apply Hin'. right. now apply list_elem_of_In.
  - exact Hx.
  - now apply Hy.
Qed.

Lemma insert_sorted_filter_on (P : A -> bool) (x : A) (l r : list A) :
  (forall y, y ∈ l -> P y = true -> P x = true -> comp y x <> Some true) ->
  insert_sorted comp x l = Some r ->
  List.filter P r = List.filter P (x :: l).
Proof.
  revert r. induction l as [|y l IH]; intros r HP H; simpl in H.
  - now inversion H.
  - destruct (comp y x) as [[]|] eqn:E; try discriminate.
    + destruct (insert_sorted comp x l) as [r'|]; [|discriminate].
      inversion H; subst. simpl.
      rewrite (IH r'); [|intros; apply HP; auto; now right|reflexivity].
      simpl. destruct (P y) eqn:Py, (P x) eqn:Px; try reflexivity.
      destruct (HP y); auto. left.
    + now inversion H.
Qed.

Lemma stable_sort_filter_on (P : A -> bool) (l r : list A) :
  (forall x y, x ∈ l -> y ∈ l -> P x = true -> P y = true ->
               comp x y <> Some true) ->
  stable_sort comp l = Some r ->
  List.filter P r = List.filter P l.
Proof.
  revert r. induction l as [|x l IH]; intros r HP H; simpl in H.
  - now inversion H.
  - destruct (stable_sort comp l) as [s|] eqn:Es; [|discriminate].
    rewrite (insert_sorted_filter_on P x s r); [| |exact H].
    + simpl. rewrite (IH s); [reflexivity | | reflexivity].
      intros; apply HP; auto; now right.
    + intros y Hy. apply HP; [|left]. right.
      now rewrite <- (stable_sort_perm _ _ _ Es).
Qed.

Lemma equivalent_spec (x y : A) :
  equivalent comp x y = true <-> incomparable comp x y.
Proof.
  unfold equivalent, incomparable.
  destruct (comp x y) as [[]|], (comp y x) as [[]|]; split;
    try discriminate; try tauto; intros [? ?]; discriminate.
Qed.

(** On a range that meets the requirement of the library, the model
    returns a list that meets its promise. *)
Lemma stable_sort_meets_contract (l r : list A) :
  asymmetric comp -> strict_weak_on comp l ->
  stable_sort comp l = Some r -> stable_sorted comp l r.
Proof.
  intros Ha Hs H. pose proof (stable_sort_perm _ _ _ H) as Hp. split.
  - exact Hp.
  - apply (ordered_StronglySorted l); [exact Hs| |].
    + intros x Hx. now rewrite <- Hp.
    + eapply stable_sort_ordered; eauto.
  - intros x Hx. apply stable_sort_filter_on; [|exact H].
    intros a b Hin_a Hin_b Pa Pb Hab.
    apply equivalent_spec in Pa, Pb.
    destruct (swo_equiv _ _ Hs a x b Hin_a Hx Hin_b) as [Hab' _];
      [destruct Pa; split; auto | exact Pb | congruence].
Qed.

(** The promise of the library leaves no choice: two lists that meet it
    on the same range are equal. *)
Lemma stable_sorted_unique (l r1 r2 : list A) :
  (forall x, x ∈ l -> comp x x = Some false) ->
  stable_sorted comp l r1 -> stable_sorted comp l r2 -> r1 = r2.
Proof.
  intros Hirr [Hp1 Ho1 Hs1] [Hp2 Ho2 Hs2].
  assert (Hp : r1 ≡ₚ r2) by (now rewrite Hp1, Hp2).
  assert (Hin : forall x, x ∈ r1 -> x ∈ l) by (intros x; now rewrite Hp1).
  assert (Hs : forall x, x ∈ l ->
                 List.filter (equivalent comp x) r1
                 = List.filter (equivalent comp x) r2)
    by (intros x Hx; now rewrite Hs1, Hs2).
  clear Hp1 Hp2 Hs1 Hs2. revert r2 Hp Ho2 Hs.
  induction r1 as [|x t1 IH]; intros r2 Hp Ho2 Hs.
  - now apply Permutation_nil in Hp.
  - destruct r2 as [|y t2];
      [symmetry in Hp; now apply Permutation_nil in Hp|].
    apply StronglySorted_inv in Ho1 as [Ho1 Hx1].
    apply StronglySorted_inv in Ho2 as [Ho2 Hy2].
    rewrite List.Forall_forall in Hx1, Hy2.
    assert (Hxl : x ∈ l) by (apply Hin; left).
    assert (Hyx : comp y x = Some false).
    { assert (Hy : y ∈ x :: t1) by (rewrite Hp; left).
      apply elem_of_cons in Hy as [->|Hy]; [now apply Hirr|].
      apply Hx1. now apply list_elem_of_In. }
    assert (Hxy : comp x y = Some false).
    { assert (Hx : x ∈ y :: t2) by (rewrite <- Hp; left).
      apply elem_of_cons in Hx as [->|Hx]; [now apply Hirr|].
      apply Hy2. now apply list_elem_of_In. }
    assert (Heq : x = y).
    { pose proof (Hs x Hxl) as E. simpl in E.
      rewrite (proj2 (equivalent_spec x x)) in E
        by (split; now apply Hirr).
      rewrite (proj2 (equivalent_spec x y)) in E by (split; auto).
      now injection E. }
    subst y. f_equal. apply IH.
    + exact Ho1.
    + intros z Hz. apply Hin. now right.
    + now apply Permutation_cons_inv in Hp.
    + exact Ho2.
    + intros z Hz. specialize (Hs z Hz). simpl in Hs.
      destruct (equivalent comp z x); [now injection Hs | exact Hs].
Qed.

End stable_sort_contract.

(** ** The comparators *)

Lemma reversePainterSortStable_painterSortStable (a b : RenderItem) :
  reversePainterSortStable a b = painterSortStable a b.
Proof. reflexivity. Qed.

Lemma gtb_asym (x y : Z) : (y >? x) = true -> (x >? y) = false.
Proof. rewrite !Z.gtb_ltb, Z.ltb_lt, Z.ltb_ge. lia. Qed.

Lemma painterSortStable_asymmetric : asymmetric painterSortStable.
Proof.
  intros a b. unfold painterSortStable, programs_differ.
  rewrite (Z.eqb_sym (groupOrder b)), (Z.eqb_sym (renderOrder b)).
  destruct (groupOrder a =? groupOrder b); simpl;
    [|intros [= H]; f_equal; now apply gtb_asym].
  destruct (renderOrder a =? renderOrder b); simpl;
    [|intros [= H]; f_equal; now apply gtb_asym].
  assert (Hrest :
    match material a, material b with
    | Some ma, Some mb =>
        if negb (m_id ma =? m_id mb) then Some (m_id mb >? m_id ma)
        else if SFneqb (z a) (z b) then Some (SFgtb (z b) (z a))
        else Some (id b >? id a)
    | _, _ => None
    end = Some true ->
    match material b, material a with
    | Some ma, Some mb =>
        if negb (m_id ma =? m_id mb) then Some (m_id mb >? m_id ma)
        else if SFneqb (z b) (z a) then Some (SFgtb (z a) (z b))
        else Some (id a >? id b)
    | _, _ => None
    end = Some false).
  { destruct (material a) as [ma|], (material b) as [mb|]; try discriminate.
    rewrite (Z.eqb_sym (m_id mb)), (SFneqb_sym (z b)).
    destruct (m_id ma =? m_id mb); simpl;
      [|intros [= H]; f_equal; now apply gtb_asym].
    destruct (SFneqb (z a) (z b)); intros [= H]; f_equal;
      [now apply SFgtb_asym | now apply gtb_asym]. }
  destruct (program a) as [pa|], (program b) as [pb|]; try exact Hrest.
  rewrite (Z.eqb_sym (p_id pb)).
  destruct (p_id pa =? p_id pb); simpl; [exact Hrest|].
  intros [= H]; f_equal; now apply gtb_asym.
Qed.

Lemma painterSortStable_is_Some (a b : RenderItem) :
  is_Some (material a) -> is_Some (material b) ->
  is_Some (painterSortStable a b).
Proof.
  intros [ma Ha] [mb Hb]. unfold painterSortStable. rewrite Ha, Hb.
  repeat match goal with
         | |- is_Some (Some _) => eauto
         | |- is_Some (if ?c then _ else _) => destruct c
         | |- is_Some (match ?c with _ => _ end) => destruct c
         end.
Qed.

Lemma same_key_spec (a b : RenderItem) :
  same_key a b = true
  <-> groupOrder a = groupOrder b /\ renderOrder a = renderOrder b
      /\ p_id <$> program a = p_id <$> program b
      /\ m_id <$> material a = m_id <$> material b
      /\ z a = z b /\ id a = id b.
Proof.
  unfold same_key.
  rewrite !andb_true_iff, !bool_decide_eq_true, !Z.eqb_eq. tauto.
Qed.

Lemma same_key_common (c a b : RenderItem) :
  same_key c a = true -> same_key c b = true -> same_key a b = true.
Proof.
  rewrite !same_key_spec.
  intros (?&?&?&?&?&?) (?&?&?&?&?&?). repeat split; congruence.
Qed.

(** Neither of two items with the same whole key goes before the other. *)
Lemma painterSortStable_same_key (a b : RenderItem) :
  same_key a b = true -> painterSortStable a b <> Some true.
Proof.
  rewrite same_key_spec. intros (Hg & Hr & Hp & Hm & Hz & Hi).
  unfold painterSortStable, programs_differ.
  rewrite Hg, Hr, Hz, Hi, !Z.eqb_refl. simpl.
  assert (Hrest :
    match material a, material b with
    | Some ma, Some mb =>
        if negb (m_id ma =? m_id mb) then Some (m_id mb >? m_id ma)
        else if SFneqb (z b) (z b) then Some (SFgtb (z b) (z b))
        else Some (id b >? id b)
    | _, _ => None
    end <> Some true).
  { destruct (material a) as [ma|], (material b) as [mb|]; try discriminate.
    injection Hm as ->. rewrite Z.eqb_refl. simpl.
    rewrite SFgtb_irrefl, Z.gtb_ltb, Z.ltb_irrefl.
    destruct (SFneqb _ _); discriminate. }
  destruct (program a) as [pa|], (program b) as [pb|]; try exact Hrest.
  injection Hp as ->. rewrite Z.eqb_refl. exact Hrest.
Qed.

Lemma reversePainterSortStable_asymmetric : asymmetric reversePainterSortStable.
Proof. exact painterSortStable_asymmetric. Qed.

Lemma reversePainterSortStable_is_Some (a b : RenderItem) :
  is_Some (material a) -> is_Some (material b) ->
  is_Some (reversePainterSortStable a b).
Proof. exact (painterSortStable_is_Some a b). Qed.

Lemma reversePainterSortStable_same_key (a b : RenderItem) :
  same_key a b = true -> reversePainterSortStable a b <> Some true.
Proof. exact (painterSortStable_same_key a b). Qed.

Section on_pointers_facts.
Context (comp : RenderItem -> RenderItem -> option bool) (h : list RenderItem).

Lemma on_pointers_asymmetric :
  asymmetric comp -> asymmetric (on_pointers comp h).
Proof.
  intros Hc pa pb. unfold on_pointers.
  destruct (h !! pa), (h !! pb); try discriminate. apply Hc.
Qed.

Lemma on_pointers_same_key (a : RenderItem) (p q : nat) :
  (forall x y, same_key x y = true -> comp x y <> Some true) ->
  keyed_as h a p = true -> keyed_as h a q = true ->
  on_pointers comp h p q <> Some true.
Proof.
  intros Hc. unfold keyed_as, on_pointers.
  destruct (h !! p), (h !! q); try discriminate.
  intros Hp Hq. apply Hc. eapply same_key_common; eauto.
Qed.

(** ** One bucket of [sort] *)

Lemma sort_bucket_perm (v v' : list nat) :
  sort_bucket comp h v = Some v' -> v' ≡ₚ v.
Proof.
  unfold sort_bucket. destruct (1 <? length v)%nat.
  - apply stable_sort_perm.
  - now intros [= ->].
Qed.

Lemma sort_bucket_small (v : list nat) :
  (length v <= 1)%nat -> sort_bucket comp h v = Some v.
Proof.
  intros H. unfold sort_bucket.
  destruct (Nat.ltb_spec 1 (length v)); [lia | reflexivity].
Qed.

Lemma sort_bucket_idempotent (v v' : list nat) :
  asymmetric comp ->
  sort_bucket comp h v = Some v' -> sort_bucket comp h v' = Some v'.
Proof.
  intros Hc H. pose proof (Permutation_length (sort_bucket_perm _ _ H)) as Hl.
  unfold sort_bucket in *. rewrite Hl. destruct (1 <? length v)%nat.
  - eapply stable_sort_idempotent; eauto. now apply on_pointers_asymmetric.
  - now injection H as ->.
Qed.

Lemma sort_bucket_stable (a : RenderItem) (v v' : list nat) :
  (forall x y, same_key x y = true -> comp x y <> Some true) ->
  sort_bucket comp h v = Some v' ->
  List.filter (keyed_as h a) v' = List.filter (keyed_as h a) v.
Proof.
  intros Hc. unfold sort_bucket. destruct (1 <? length v)%nat.
  - apply stable_sort_filter. intros p q. now apply on_pointers_same_key.
  - now intros [= ->].
Qed.

Lemma sort_bucket_is_Some (v : list nat) :
  (forall x y, is_Some (material x) -> is_Some (material y) -> is_Some (comp x y)) ->
  (forall p, p ∈ v -> active h p) ->
  is_Some (sort_bucket comp h v).
Proof.
  intros Hc Hv. unfold sort_bucket. destruct (1 <? length v)%nat; [|eauto].
  apply stable_sort_is_Some. intros p q Hp Hq. unfold on_pointers.
  destruct (Hv p Hp) as (a & -> & Ha), (Hv q Hq) as (b & -> & Hb).
  now apply Hc.
Qed.

End on_pointers_facts.

(** On a bucket whose keys are consistent, the order [sort] leaves is the
    one the contract of the library determines: it meets the promise, and
    so does no other list. *)
Lemma sort_bucket_meets_contract
    (comp : RenderItem -> RenderItem -> option bool) (h : list RenderItem)
    (v v' : list nat) :
  asymmetric comp -> strict_weak_on (on_pointers comp h) v ->
  sort_bucket comp h v = Some v' ->
  stable_sorted (on_pointers comp h) v v'
  /\ forall r, stable_sorted (on_pointers comp h) v r -> r = v'.
Proof.
  intros Ha Hs H.
  assert (Hv : stable_sorted (on_pointers comp h) v v').
  { unfold sort_bucket in H. destruct (Nat.ltb_spec 1 (length v)) as [Hlen|Hlen].
    - apply stable_sort_meets_contract; auto.
      now apply on_pointers_asymmetric.
    - injection H as <-. split; [reflexivity | | reflexivity].
      destruct v as [|x [|y v]]; [constructor | | simpl in Hlen; lia].
      constructor; constructor. }
  split; [exact Hv|]. intros r Hr.
  apply (stable_sorted_unique (on_pointers comp h) v); auto.
  apply (swo_irrefl _ _ Hs).
Qed.

(** ** [sort] *)

Lemma sort_inv (l l' : GLRenderList) :
  sort l = Some l' ->
  heap l' = heap l /\ properties l' = properties l
  /\ renderItems l' = renderItems l
  /\ renderItemsIndex l' = renderItemsIndex l
  /\ sort_bucket painterSortStable (heap l) (opaque l) = Some (opaque l')
  /\ sort_bucket reversePainterSortStable (heap l) (transparent l)
     = Some (transparent l').
Proof.
  unfold sort.
  destruct (sort_bucket painterSortStable _ _) as [o|]; [|discriminate].
  destruct (sort_bucket reversePainterSortStable _ _) as [t|]; [|discriminate].
  intros [= <-]. simpl. auto 10.
Qed.

Lemma sort_is_Some (l : GLRenderList) :
  buckets_active l -> is_Some (sort l).
Proof.
  intros H. unfold sort.
  destruct (sort_bucket_is_Some painterSortStable (heap l) (opaque l))
    as [o ->]; [apply painterSortStable_is_Some | |].
  { intros p Hp. apply H. apply elem_of_app. now left. }
  destruct (sort_bucket_is_Some reversePainterSortStable (heap l) (transparent l))
    as [t ->]; [apply reversePainterSortStable_is_Some | |eauto].
  intros p Hp. apply H. apply elem_of_app. now right.
Qed.

(** C8, amended.  On a list whose bucketed items are in use, [sort]
    returns, and a bucket of at most one element comes back as it was.
    Where moreover the keys are consistent, that is each comparator is a
    strict weak ordering on its bucket as [std::stable_sort] requires,
    sorting the result again returns the same list (idempotent), and the
    items that share a whole sort key, id included, keep their relative
    order in each bucket (stable). *)
Theorem sort_idempotent_stable (l : GLRenderList) :
  buckets_active l ->
  exists l',
    sort l = Some l'
    /\ ((length (opaque l) <= 1)%nat -> opaque l' = opaque l)
    /\ ((length (transparent l) <= 1)%nat -> transparent l' = transparent l)
    /\ (consistent_keys l ->
        sort l' = Some l'
        /\ forall a,
             List.filter (keyed_as (heap l) a) (opaque l')
             = List.filter (keyed_as (heap l) a) (opaque l)
             /\ List.filter (keyed_as (heap l) a) (transparent l')
                = List.filter (keyed_as (heap l) a) (transparent l)).
Proof.
  intros Hact. destruct (sort_is_Some l Hact) as [l' Hs].
  exists l'. split; [exact Hs|].
  destruct (sort_inv _ _ Hs) as (Hh & Hp & Hr & Hi & Ho & Ht).
  split; [|split; [|intros _; split]].
  - intros Hlen. rewrite (sort_bucket_small _ _ _ Hlen) in Ho. congruence.
  - intros Hlen. rewrite (sort_bucket_small _ _ _ Hlen) in Ht. congruence.
  - unfold sort. rewrite Hh.
    rewrite (sort_bucket_idempotent _ _ _ _ painterSortStable_asymmetric Ho).
    rewrite (sort_bucket_idempotent _ _ _ _ reversePainterSortStable_asymmetric Ht).
    destruct l'; simpl in *. reflexivity.
  - intros a. split.
    + eapply sort_bucket_stable; [|exact Ho]. apply painterSortStable_same_key.
    + eapply sort_bucket_stable; [|exact Ht].
      apply reversePainterSortStable_same_key.
Qed.

Lemma twins_buckets : opaque twins = [0; 1]%nat /\ transparent twins = [].
Proof. split; vm_compute; reflexivity. Qed.

Lemma twins_consistent : consistent_keys twins.
Proof.
  unfold consistent_keys. destruct twins_buckets as [-> ->].
  split; split; intros;
    repeat match goal with
           | H : _ ∈ [] |- _ => inversion H
           | H : _ ∈ _ :: _ |- _ => apply elem_of_cons in H as [->|H]
           end;
    unfold incomparable in *;
    repeat match goal with
           | H : _ /\ _ |- _ => destruct H
           | H : on_pointers _ _ _ _ = _ |- _ => vm_compute in H
           end;
    try discriminate; vm_compute; eauto.
Qed.

Lemma sort_idempotent_stable_witness :
  buckets_active twins
  /\ consistent_keys twins
  /\ exists l',
      sort twins = Some l'
      /\ ((length (opaque twins) <= 1)%nat -> opaque l' = opaque twins)
      /\ ((length (transparent twins) <= 1)%nat ->
          transparent l' = transparent twins)
      /\ sort l' = Some l'
      /\ forall a,
           List.filter (keyed_as (heap twins) a) (opaque l')
           = List.filter (keyed_as (heap twins) a) (opaque twins)
           /\ List.filter (keyed_as (heap twins) a) (transparent l')
              = List.filter (keyed_as (heap twins) a) (transparent twins).
Proof.
  assert (H : buckets_active twins).
  { intros p. destruct twins_buckets as [-> ->]. simpl. intros Hp.
    apply elem_of_cons in Hp as [->|Hp];
      [|apply elem_of_cons in Hp as [->|Hp]; [|inversion Hp]];
      (eexists; split; [vm_compute; reflexivity | simpl; eauto]). }
  split; [exact H|]. split; [exact twins_consistent|].
  destruct (sort_idempotent_stable twins H) as (l' & Hs & Ho & Ht & Hc).
  destruct (Hc twins_consistent) as [Hi Hst].
  exists l'. auto.
Defined.

(** C8, as stated, fails: two opaque items pushed one after the other with
    identical groupOrder, renderOrder, program, material and z, the first
    with the greater id, come out of [sort] in the opposite order; their
    keys are consistent, so this is the order the library leaves whatever
    its algorithm. *)
Lemma sort_breaks_push_order_of_equal_keys :
  exists a b l',
    opaque twins = [0; 1]%nat
    /\ heap twins !! 0%nat = Some a /\ heap twins !! 1%nat = Some b
    /\ same_key_but_id a b = true
    /\ sort twins = Some l'
    /\ opaque l' = [1; 0]%nat
    /\ consistent_keys twins.
Proof.
  do 3 eexists.
  split; [vm_compute; reflexivity|].
  split; [vm_compute; reflexivity|].
  split; [vm_compute; reflexivity|].
  split; [vm_compute; reflexivity|].
  split; [vm_compute; reflexivity|].
  split; [vm_compute; reflexivity | exact twins_consistent].
Qed.

(** C1, on the code.  Three transparent draws pushed at depths 1, 5 and 3
    with all other keys equal come out of [sort] at depths 1, 3, 5, front
    to back, exactly as the same draws pushed as opaque do:
    [reversePainterSortStable] compares z in the direction of
    [painterSortStable]. *)
Theorem transparent_sort_is_front_to_back :
  (exists l',
     calls [Push (draw 1 glass 1); Push (draw 2 glass 5);
            Push (draw 3 glass 3); Sort] (init fresh_list) = Some l'
     /\ opaque l' = []
     /\ depths l' (transparent l')
        = [Some (float_of_Z 1); Some (float_of_Z 3); Some (float_of_Z 5)])
  /\ (exists l',
       calls [Push (draw 1 basic 1); Push (draw 2 basic 5);
              Push (draw 3 basic 3); Sort] (init fresh_list) = Some l'
       /\ transparent l' = []
       /\ depths l' (opaque l')
          = [Some (float_of_Z 1); Some (float_of_Z 3); Some (float_of_Z 5)])
  /\ (forall a b, reversePainterSortStable a b = painterSortStable a b).
Proof.
  split; [|split].
  - eexists. repeat split; vm_compute; reflexivity.
  - eexists. repeat split; vm_compute; reflexivity.
  - reflexivity.
Qed.

(** ** [getNextRenderItem] *)

Lemma get_fst {V : Type} (d : V) (k : string) (t : gmap string V) :
  (GLProperties.get d k t).1 = default d (t !! k).
Proof. unfold GLProperties.get. destruct (t !! k); reflexivity. Qed.

Lemma getNextRenderItem_append (a : DrawArgs) (l : GLRenderList) :
  (length (renderItems l) <= renderItemsIndex l)%nat ->
  exists props,
    getNextRenderItem (a_object a) (a_geometry a) (a_material a)
      (a_groupOrder a) (a_z a) (a_group a) l
    = Some (length (heap l),
            {| heap := heap l ++ [fresh_item a l];
               properties := props;
               renderItems := renderItems l ++ [length (heap l)];
               renderItemsIndex := S (renderItemsIndex l);
               opaque := opaque l;
               transparent := transparent l |}).
Proof.
  intros H. unfold getNextRenderItem, fresh_item, linkage.
  rewrite <- (get_fst MaterialProperties_default).
  destruct (GLProperties.get _ _ _) as [mp props]. simpl.
  destruct (Nat.leb_spec (length (renderItems l)) (renderItemsIndex l));
    [eauto | lia].
Qed.

Lemma getNextRenderItem_reuse (a : DrawArgs) (l : GLRenderList)
    (p : nat) (old : RenderItem) :
  renderItems l !! renderItemsIndex l = Some p ->
  heap l !! p = Some old ->
  exists props,
    getNextRenderItem (a_object a) (a_geometry a) (a_material a)
      (a_groupOrder a) (a_z a) (a_group a) l
    = Some (p,
            {| heap := <[p :=
                 {| id := to_int (o_id (a_object a));
                    object := Some (a_object a);
                    geometry := Some (a_geometry a);
                    material := Some (a_material a);
                    program :=
                      match mp_program (linkage (a_material a) l) with
                      | Some pg => Some pg
                      | None => program old
                      end;
                    groupOrder := a_groupOrder a;
                    renderOrder := o_renderOrder (a_object a);
                    z := a_z a;
                    group := a_group a |} ]> (heap l);
               properties := props;
               renderItems := renderItems l;
               renderItemsIndex := S (renderItemsIndex l);
               opaque := opaque l;
               transparent := transparent l |}).
Proof.
  intros Hp Hold. unfold getNextRenderItem, linkage.
  rewrite <- (get_fst MaterialProperties_default).
  destruct (GLProperties.get _ _ _) as [mp props]. simpl.
  apply lookup_lt_Some in Hp as Hlt.
  destruct (Nat.leb_spec (length (renderItems l)) (renderItemsIndex l));
    [lia|].
  rewrite Hp, Hold. eauto.
Qed.

Lemma to_int_small (x : Z) : - 2 ^ 31 <= x < 2 ^ 31 -> to_int x = x.
Proof. intros H. unfold to_int. rewrite Z.mod_small; lia. Qed.

(** What [getNextRenderItem] writes, branch by branch.  Whenever the slot
    at the mark can be handed out, it returns an item whose id is the
    object's id cast to [int] (the id itself when it fits) and whose
    renderOrder is the object's.  The append branch stores the program of
    the material's linkage record, null included; the reuse branch assigns
    it under [if (materialProperties.program)] only. *)
Lemma getNextRenderItem_fields
    (object : Object3D) (geometry : BufferGeometry) (material : Material)
    (groupOrder : Z) (depth : spec_float) (group : option GeometryGroup)
    (l : GLRenderList) :
  slot_ready l ->
  exists p l' it,
    getNextRenderItem object geometry material groupOrder depth group l
    = Some (p, l')
    /\ heap l' !! p = Some it
    /\ renderItemsIndex l' = S (renderItemsIndex l)
    /\ id it = to_int (o_id object)
    /\ (- 2 ^ 31 <= o_id object < 2 ^ 31 -> id it = o_id object)
    /\ renderOrder it = o_renderOrder object
    /\ ((length (renderItems l) <= renderItemsIndex l)%nat ->
        program it = mp_program (linkage material l))
    /\ (forall old,
          (renderItemsIndex l < length (renderItems l))%nat ->
          heap l !! p = Some old ->
          program it = match mp_program (linkage material l) with
                       | Some pg => Some pg
                       | None => program old
                       end).
Proof.
  set (a := {| a_object := object; a_geometry := geometry;
               a_material := material; a_groupOrder := groupOrder;
               a_z := depth; a_group := group |}).
  intros [Hfull | (p & Hp & old & Hold)].
  - destruct (getNextRenderItem_append a l Hfull) as [props E]. simpl in E.
    do 3 eexists. split; [exact E|]. simpl.
    split; [now apply list_lookup_middle|]. simpl.
    repeat split; auto using to_int_small. intros; lia.
  - destruct (getNextRenderItem_reuse a l p old Hp Hold) as [props E].
    simpl in E. do 3 eexists. split; [exact E|]. simpl.
    split; [apply list_lookup_insert_eq; now apply lookup_lt_Some in Hold|].
    simpl. repeat split; auto using to_int_small.
    + apply lookup_lt_Some in Hp. intros; lia.
    + intros old' _ Hold'. rewrite Hold in Hold'. now injection Hold' as <-.
Qed.


(** ** A frame: [init], then draws, [sort] and [finish] *)

Lemma init_frame (l : GLRenderList) : frame (length (heap l)) (init l).
Proof.
  split; simpl; [reflexivity | lia | reflexivity |].
  intros p Hp. inversion Hp.
Qed.

Section frame_facts.
Context (base : nat) (l : GLRenderList) (Hl : frame base l).

Lemma frame_mark : renderItemsIndex l = length (renderItems l).
Proof. now rewrite (frame_pool _ _ Hl), length_seq. Qed.

Lemma frame_count :
  renderItemsIndex l = (length (opaque l) + length (transparent l))%nat.
Proof.
  rewrite <- length_app, (Permutation_length (frame_buckets _ _ Hl)).
  apply frame_mark.
Qed.

Lemma frame_NoDup : NoDup (opaque l ++ transparent l).
Proof.
  rewrite (frame_buckets _ _ Hl), (frame_pool _ _ Hl). apply NoDup_seq.
Qed.

Lemma frame_buckets_active : buckets_active l.
Proof.
  intros p Hp. apply (frame_active _ _ Hl).
  now rewrite <- (frame_buckets _ _ Hl).
Qed.

(** Appending a fresh item and putting its pointer in a bucket. *)
Lemma frame_grow (a : DrawArgs) (props : gmap string MaterialProperties)
    (o t : list nat) :
  o ++ t ≡ₚ length (heap l) :: (opaque l ++ transparent l) ->
  frame base
    {| heap := heap l ++ [fresh_item a l];
       properties := props;
       renderItems := renderItems l ++ [length (heap l)];
       renderItemsIndex := S (renderItemsIndex l);
       opaque := o;
       transparent := t |}.
Proof.
  intros Hot. destruct Hl as [Hpool Hheap Hbuckets Hactive].
  split; cbn [heap renderItems renderItemsIndex opaque transparent].
  - now rewrite seq_S, <- Hpool, Hheap.
  - rewrite length_app. simpl. lia.
  - rewrite Hot, Hbuckets. apply Permutation_cons_append.
  - intros p Hp. apply elem_of_app in Hp as [Hp | Hp].
    + destruct (Hactive p Hp) as (it & Hit & Hm). exists it.
      split; [now apply lookup_app_l_Some | exact Hm].
    + apply list_elem_of_singleton in Hp as ->. exists (fresh_item a l).
      split; [now apply list_lookup_middle | simpl; eauto].
Qed.

Lemma push_frame (a : DrawArgs) :
  exists l',
    call (Push a) l = Some l'
    /\ frame base l'
    /\ heap l' = heap l ++ [fresh_item a l]
    /\ renderItemsIndex l' = S (renderItemsIndex l)
    /\ if is_transparent a then
         transparent l' = transparent l ++ [length (heap l)]
         /\ opaque l' = opaque l
       else
         opaque l' = opaque l ++ [length (heap l)]
         /\ transparent l' = transparent l.
Proof.
  destruct (getNextRenderItem_append a l) as [props E];
    [rewrite frame_mark; lia|].
  simpl. unfold push, is_transparent. rewrite E.
  destruct (m_transparent (a_material a)); eexists;
    (split; [reflexivity|]); simpl; (split; [|auto]);
    apply frame_grow; simpl.
  - rewrite app_assoc. symmetry. apply Permutation_cons_append.
  - rewrite <- app_assoc. symmetry. apply Permutation_middle.
Qed.

Lemma unshift_frame (a : DrawArgs) :
  exists l',
    call (Unshift a) l = Some l'
    /\ frame base l'
    /\ heap l' = heap l ++ [fresh_item a l]
    /\ renderItemsIndex l' = S (renderItemsIndex l)
    /\ if is_transparent a then
         transparent l' = length (heap l) :: transparent l
         /\ opaque l' = opaque l
       else
         opaque l' = length (heap l) :: opaque l
         /\ transparent l' = transparent l.
Proof.
  destruct (getNextRenderItem_append a l) as [props E];
    [rewrite frame_mark; lia|].
  simpl. unfold unshift, is_transparent. rewrite E.
  destruct (m_transparent (a_material a)); eexists;
    (split; [reflexivity|]); simpl; (split; [|auto]);
    apply frame_grow; simpl.
  - symmetry. apply Permutation_middle.
  - reflexivity.
Qed.

Lemma sort_frame :
  exists l',
    sort l = Some l' /\ frame base l' /\ heap l' = heap l
    /\ renderItemsIndex l' = renderItemsIndex l
    /\ opaque l' ≡ₚ opaque l /\ transparent l' ≡ₚ transparent l.
Proof.
  destruct (sort_is_Some l frame_buckets_active) as [l' Hs].
  destruct (sort_inv _ _ Hs) as (Hh & _ & Hr & Hi & Ho & Ht).
  apply sort_bucket_perm in Ho, Ht.
  exists l'. repeat split; try assumption.
  - rewrite Hr, Hi. apply (frame_pool _ _ Hl).
  - rewrite Hh, Hi. apply (frame_heap _ _ Hl).
  - rewrite Ho, Ht, Hr. apply (frame_buckets _ _ Hl).
  - rewrite Hh, Hr. apply (frame_active _ _ Hl).
Qed.

(** There is no slot past the mark, so the loop of [finish] has nothing to
    walk. *)
Lemma finish_frame : finish l = Some l.
Proof.
  unfold finish. rewrite drop_ge by (rewrite frame_mark; lia). simpl.
  now destruct l.
Qed.

Lemma call_frame (c : Call) :
  exists l',
    call c l = Some l' /\ frame base l' /\ call_effect c l l'
    /\ heap l `prefix_of` heap l'.
Proof.
  destruct c as [a | a | |]; simpl call.
  - destruct (push_frame a) as (l' & E & Hf & Hh & Hi & Hb).
    exists l'. simpl in E. split; [exact E|]. split; [exact Hf|].
    split; [|rewrite Hh; now apply prefix_app_r].
    split; [exact Hi|]. unfold is_transparent in Hb.
    destruct (m_transparent (a_material a)); destruct Hb as [-> ->];
      rewrite ?length_app; simpl; split; (lia || reflexivity).
  - destruct (unshift_frame a) as (l' & E & Hf & Hh & Hi & Hb).
    exists l'. simpl in E. split; [exact E|]. split; [exact Hf|].
    split; [|rewrite Hh; now apply prefix_app_r].
    split; [exact Hi|]. unfold is_transparent in Hb.
    destruct (m_transparent (a_material a)); destruct Hb as [-> ->];
      simpl; split; reflexivity.
  - destruct sort_frame as (l' & E & Hf & Hh & Hi & Ho & Ht).
    exists l'. split; [exact E|]. split; [exact Hf|].
    split; [|now rewrite Hh].
    split; [exact Hi|]. split; now apply Permutation_length.
  - exists l. rewrite finish_frame. split; [reflexivity|].
    split; [exact Hl|]. split; [|reflexivity]. simpl. auto.
Qed.

End frame_facts.

Lemma calls_frame (base : nat) (cs : list Call) (l : GLRenderList) :
  frame base l ->
  exists l', calls cs l = Some l' /\ frame base l'.
Proof.
  revert l. induction cs as [|c cs IH]; intros l Hl; simpl; [eauto|].
  destruct (call_frame base l Hl c) as (l1 & -> & Hl1 & _).
  now apply IH.
Qed.

(** C10.  After [init] and any run of push, unshift, sort and finish
    calls, every further call returns, the mark equals the number of
    bucketed items before and after it, a push or unshift moves the mark
    by one and adds one reference to the bucket of the material and none
    to the other, and sort and finish leave the mark and both sizes as
    they are. *)
Theorem mark_counts_bucketed_items (l : GLRenderList) (cs : list Call) (c : Call) :
  exists s s',
    calls cs (init l) = Some s
    /\ call c s = Some s'
    /\ renderItemsIndex s = (length (opaque s) + length (transparent s))%nat
    /\ renderItemsIndex s' = (length (opaque s') + length (transparent s'))%nat
    /\ call_effect c s s'.
Proof.
  destruct (calls_frame _ cs _ (init_frame l)) as (s & Hs & Hf).
  destruct (call_frame _ s Hf c) as (s' & Hc & Hf' & He & _).
  exists s, s'. eauto 10 using frame_count.
Qed.

(** ** Pushes *)

Lemma draw_of_fresh (h : list RenderItem) (a : DrawArgs) (l : GLRenderList)
    (p : nat) :
  h !! p = Some (fresh_item a l) -> draw_of h p = Some a.
Proof. unfold draw_of. intros ->. now destruct a. Qed.

Lemma draw_of_prefix (h h' : list RenderItem) (v : list nat) (ds : list DrawArgs) :
  h `prefix_of` h' ->
  draw_of h <$> v = Some <$> ds -> draw_of h' <$> v = Some <$> ds.
Proof.
  intros Hpre. revert ds. induction v as [|p v IH]; intros [|d ds]; simpl;
    try discriminate; [reflexivity|].
  intros [= Hp Hv]. f_equal; [|now apply IH].
  unfold draw_of in *. destruct (h !! p) as [it|] eqn:E; [|discriminate].
  now rewrite (prefix_lookup_Some _ _ _ _ E Hpre).
Qed.

Lemma pushes_frame (base : nat) (args : list DrawArgs) (l : GLRenderList) :
  frame base l ->
  exists s ts os,
    calls (Push <$> args) l = Some s
    /\ frame base s
    /\ heap l `prefix_of` heap s
    /\ transparent s = transparent l ++ ts
    /\ opaque s = opaque l ++ os
    /\ draw_of (heap s) <$> ts = Some <$> List.filter is_transparent args
    /\ draw_of (heap s) <$> os
       = Some <$> List.filter (fun a => negb (is_transparent a)) args.
Proof.
  revert l. induction args as [|a args IH]; intros l Hl.
  - exists l, [], []. rewrite !app_nil_r. split_and!; auto.
  - destruct (push_frame base l Hl a) as (l1 & E & Hl1 & Hh & _ & Hb).
    destruct (IH l1 Hl1) as (s & ts & os & Hs & Hfs & Hpre & Ht & Ho & Hdt & Hdo).
    assert (Hp : draw_of (heap s) (length (heap l)) = Some a).
    { apply (draw_of_fresh _ a l). eapply prefix_lookup_Some; [|exact Hpre].
      rewrite Hh. now apply list_lookup_middle. }
    assert (Hpre' : heap l `prefix_of` heap s).
    { etrans; [|exact Hpre]. rewrite Hh. now apply prefix_app_r. }
    change (calls (Push <$> a :: args) l)
      with (match call (Push a) l with
            | Some l' => calls (Push <$> args) l'
            | None => None
            end).
    rewrite E. cbn [List.filter].
    destruct (is_transparent a); cbn [negb]; destruct Hb as [Hb1 Hb2].
    + exists s, (length (heap l) :: ts), os.
      rewrite Ht, Ho, Hb1, Hb2, <- app_assoc, !fmap_cons, Hp, Hdt, Hdo.
      split_and!; auto.
    + exists s, ts, (length (heap l) :: os).
      rewrite Ht, Ho, Hb1, Hb2, <- app_assoc, !fmap_cons, Hp, Hdt, Hdo.
      split_and!; auto.
Qed.

Lemma filter_lengths {A : Type} (f : A -> bool) (l : list A) :
  (length (List.filter (fun a => negb (f a)) l) + length (List.filter f l))%nat
  = length l.
Proof. induction l as [|x l IH]; simpl; [|destruct (f x); simpl]; lia. Qed.

(** C7.  After [init], any number of pushes returns a list in which the
    two buckets together hold as many references as there were pushes, no
    reference occurs twice or in both buckets, the transparent bucket
    holds, in push order, exactly the draws whose material is flagged
    transparent, and the opaque bucket exactly the other draws. *)
Theorem pushes_fill_one_bucket_each (l : GLRenderList) (args : list DrawArgs) :
  exists s,
    calls (Push <$> args) (init l) = Some s
    /\ (length (opaque s) + length (transparent s))%nat = length args
    /\ NoDup (opaque s ++ transparent s)
    /\ Forall (fun p => p ∉ transparent s) (opaque s)
    /\ draw_of (heap s) <$> transparent s
       = Some <$> List.filter is_transparent args
    /\ draw_of (heap s) <$> opaque s
       = Some <$> List.filter (fun a => negb (is_transparent a)) args.
Proof.
  destruct (pushes_frame _ args _ (init_frame l))
    as (s & ts & os & Hs & Hf & _ & Ht & Ho & Hdt & Hdo).
  simpl in Ht, Ho. subst ts os. exists s.
  pose proof (frame_NoDup _ _ Hf) as Hnd.
  split; [exact Hs|]. split; [|split; [exact Hnd|split; [|auto]]].
  - rewrite <- (length_fmap (draw_of (heap s)) (opaque s)), Hdo.
    rewrite <- (length_fmap (draw_of (heap s)) (transparent s)), Hdt.
    rewrite !length_fmap. apply filter_lengths.
  - apply NoDup_app in Hnd as (_ & Hdisj & _). now apply Forall_forall.
Qed.

(** ** The pool across frames *)

(** C2, on the code.  [init] resets the mark and empties both buckets, and
    it empties the pool as well: after a frame of two draws the pool holds
    two items, and [init] leaves none. *)
Theorem init_empties_pool :
  renderItems first_frame = [0; 1]%nat
  /\ renderItems (init first_frame) = []
  /\ (forall l,
        renderItemsIndex (init l) = 0%nat
        /\ opaque (init l) = []
        /\ transparent (init l) = []
        /\ renderItems (init l) = []).
Proof.
  split; [vm_compute; reflexivity|]. split; [reflexivity|].
  intros l. repeat split.
Qed.

(** C3, on the code.  A frame of two pushes and [finish] is followed by
    [init], one push and [finish]: the pool then has the one slot of the
    new frame, no slot at the mark, and no item anywhere was cleared;
    the walk of [finish] is over no slot at all. *)
Theorem finish_after_shorter_frame_clears_nothing :
  renderItemsIndex first_frame = 2%nat
  /\ (exists l2,
        calls [Push (draw 3 basic 3); Finish] (init first_frame) = Some l2
        /\ renderItemsIndex l2 = 1%nat
        /\ length (renderItems l2) = 1%nat
        /\ renderItems l2 !! 1%nat = None
        /\ ids l2 (renderItems l2) = [Some 3]
        /\ Forall (fun it => id it <> -1) (heap l2))
  /\ (forall base l, frame base l ->
        drop (renderItemsIndex l) (renderItems l) = [] /\ finish l = Some l).
Proof.
  split; [vm_compute; reflexivity|]. split.
  - eexists. split; [vm_compute; reflexivity|].
    repeat split; try (vm_compute; reflexivity).
    apply (bool_decide_unpack _). vm_compute. exact I.
  - intros base l Hl. split; [|now apply (finish_frame base)].
    apply drop_ge. rewrite (frame_mark base l Hl). lia.
Qed.

(** * Further properties of the render list *)

Lemma twins_active : buckets_active twins.
Proof.
  intros p. destruct twins_buckets as [-> ->]. simpl. intros Hp.
  apply elem_of_cons in Hp as [->|Hp];
    [|apply elem_of_cons in Hp as [->|Hp]; [|inversion Hp]];
    (eexists; split; [vm_compute; reflexivity | simpl; eauto]).
Defined.

(** X1.  [sort] returns on a list whose bucketed items are in use, and it
    only reorders references: the items, the material table, the pool and
    the mark are as before and each bucket is a permutation of itself. *)
Theorem sort_only_permutes (l : GLRenderList) :
  buckets_active l ->
  exists l',
    sort l = Some l'
    /\ heap l' = heap l /\ properties l' = properties l
    /\ renderItems l' = renderItems l
    /\ renderItemsIndex l' = renderItemsIndex l
    /\ opaque l' ≡ₚ opaque l /\ transparent l' ≡ₚ transparent l.
Proof.
  intros Hact. destruct (sort_is_Some l Hact) as [l' Hs]. exists l'.
  destruct (sort_inv _ _ Hs) as (Hh & Hp & Hr & Hi & Ho & Ht).
  apply sort_bucket_perm in Ho, Ht. auto 10.
Qed.

Lemma sort_only_permutes_witness :
  buckets_active twins
  /\ exists l',
      sort twins = Some l'
      /\ heap l' = heap twins /\ properties l' = properties twins
      /\ renderItems l' = renderItems twins
      /\ renderItemsIndex l' = renderItemsIndex twins
      /\ opaque l' ≡ₚ opaque twins /\ transparent l' ≡ₚ transparent twins.
Proof.
  split; [exact twins_active | exact (sort_only_permutes twins twins_active)].
Defined.

(** ** The order [sort] establishes *)

Lemma painterSortStable_coarse (a b : RenderItem) :
  painterSortStable b a = Some false -> coarse_le a b.
Proof.
  unfold painterSortStable, coarse_le.
  destruct (Z.eqb_spec (groupOrder b) (groupOrder a)) as [Hg|Hg]; simpl.
  - destruct (Z.eqb_spec (renderOrder b) (renderOrder a)) as [Hr|Hr]; simpl.
    + intros _. right. lia.
    + intros [= H]. rewrite Z.gtb_ltb, Z.ltb_ge in H. right. lia.
  - intros [= H]. rewrite Z.gtb_ltb, Z.ltb_ge in H. left. lia.
Qed.

Lemma coarse_le_at_trans (h : list RenderItem) : Transitive (coarse_le_at h).
Proof.
  intros p q r (a & b & Ha & Hb & Hab) (b' & c & Hb' & Hc & Hbc).
  rewrite Hb in Hb'. injection Hb' as <-. exists a, c.
  split; [exact Ha|]. split; [exact Hc|]. unfold coarse_le in *. lia.
Qed.

Lemma ordered_Sorted (comp : RenderItem -> RenderItem -> option bool)
    (h : list RenderItem) (v : list nat) :
  (forall a b, comp b a = Some false -> coarse_le a b) ->
  ordered (on_pointers comp h) v -> Sorted (coarse_le_at h) v.
Proof.
  intros Hc. induction v as [|p v IH]; [constructor|].
  intros H. apply ordered_cons in H as [Hp Hv].
  constructor; [now apply IH|].
  destruct v as [|q v]; constructor. simpl in Hp. unfold on_pointers in Hp.
  destruct (h !! q) as [b|] eqn:Hq; [|discriminate].
  destruct (h !! p) as [a|] eqn:Ha; [|discriminate].
  exists a, b. auto.
Qed.

Lemma sort_bucket_Sorted (comp : RenderItem -> RenderItem -> option bool)
    (h : list RenderItem) (v v' : list nat) :
  asymmetric comp ->
  (forall a b, comp b a = Some false -> coarse_le a b) ->
  sort_bucket comp h v = Some v' -> StronglySorted (coarse_le_at h) v'.
Proof.
  intros Hasym Hc H. apply Sorted_StronglySorted; [apply coarse_le_at_trans|].
  unfold sort_bucket in H. destruct (Nat.ltb_spec 1 (length v)) as [Hlt|Hle].
  - apply (ordered_Sorted comp); [exact Hc|].
    eapply stable_sort_ordered; [|exact H]. now apply on_pointers_asymmetric.
  - injection H as <-. destruct v as [|p [|q v]]; simpl in Hle; try lia;
      repeat constructor.
Qed.

(** X2.  After [sort], along each bucket the groupOrder never decreases,
    and among items of one groupOrder the renderOrder never decreases,
    between any two positions, not only neighbours. *)
Theorem sort_orders_group_then_render (l : GLRenderList) :
  buckets_active l ->
  exists l',
    sort l = Some l'
    /\ StronglySorted (coarse_le_at (heap l')) (opaque l')
    /\ StronglySorted (coarse_le_at (heap l')) (transparent l').
Proof.
  intros Hact. destruct (sort_is_Some l Hact) as [l' Hs]. exists l'.
  destruct (sort_inv _ _ Hs) as (Hh & _ & _ & _ & Ho & Ht). rewrite Hh.
  split; [exact Hs|]. split.
  - eapply sort_bucket_Sorted; [| |exact Ho].
    + apply painterSortStable_asymmetric.
    + apply painterSortStable_coarse.
  - eapply sort_bucket_Sorted; [| |exact Ht].
    + apply reversePainterSortStable_asymmetric.
    + apply painterSortStable_coarse.
Qed.

Lemma sort_orders_group_then_render_witness :
  buckets_active twins
  /\ exists l',
      sort twins = Some l'
      /\ StronglySorted (coarse_le_at (heap l')) (opaque l')
      /\ StronglySorted (coarse_le_at (heap l')) (transparent l').
Proof.
  split; [exact twins_active|].
  exact (sort_orders_group_then_render twins twins_active).
Defined.

(** X3.  The comparator is not a strict weak ordering: when some item has
    no program, three items can each go before the next in a cycle,
    because the program is compared only between two items that both have
    one and the material decides otherwise. *)
Theorem painterSortStable_has_cycles :
  painterSortStable (keyed (Some 1) 3) (keyed (Some 2) 1) = Some true
  /\ painterSortStable (keyed (Some 2) 1) (keyed None 2) = Some true
  /\ painterSortStable (keyed None 2) (keyed (Some 1) 3) = Some true
  /\ ~ (forall a b c,
          painterSortStable a b = Some true ->
          painterSortStable b c = Some true ->
          painterSortStable a c = Some true).
Proof.
  assert (H1 : painterSortStable (keyed (Some 1) 3) (keyed (Some 2) 1) = Some true)
    by reflexivity.
  assert (H2 : painterSortStable (keyed (Some 2) 1) (keyed None 2) = Some true)
    by reflexivity.
  assert (H3 : painterSortStable (keyed None 2) (keyed (Some 1) 3) = Some true)
    by reflexivity.
  split; [exact H1|]. split; [exact H2|]. split; [exact H3|].
  intros Htrans. pose proof (Htrans _ _ _ H1 H2) as H13.
  apply painterSortStable_asymmetric in H13. rewrite H3 in H13. discriminate.
Qed.

(** ** [finish] on any pool *)

Lemma stale_run_insert (h : list RenderItem) (p : nat) (x : RenderItem)
    (slots : list nat) :
  p ∉ slots -> stale_run (<[p := x]> h) slots = stale_run h slots.
Proof.
  induction slots as [|q slots IH]; [reflexivity|]. intros Hp.
  apply not_elem_of_cons in Hp as [Hne Hp]. simpl.
  rewrite list_lookup_insert_ne by exact Hne. rewrite (IH Hp). reflexivity.
Qed.

Lemma stale_run_subseteq (h : list RenderItem) (slots : list nat) (q : nat) :
  q ∈ stale_run h slots -> q ∈ slots.
Proof.
  induction slots as [|p slots IH]; simpl; [auto|].
  destruct (h !! p) as [it|]; [|intros H; inversion H].
  destruct (id it =? -1); [intros H; inversion H|].
  intros H. apply elem_of_cons in H as [->|H]; [left | right; auto].
Qed.

Lemma finish_loop_clears (slots : list nat) (h : list RenderItem) :
  NoDup slots ->
  (forall p, p ∈ slots -> is_Some (h !! p)) ->
  exists h',
    finish_loop h slots = Some h'
    /\ forall q,
         h' !! q = if bool_decide (q ∈ stale_run h slots)
                   then clear_item <$> h !! q
                   else h !! q.
Proof.
  revert h. induction slots as [|p slots IH]; intros h Hnd Hres.
  - exists h. split; [reflexivity|]. intros q. cbn [stale_run].
    rewrite bool_decide_eq_false_2 by (intros H; inversion H). reflexivity.
  - apply NoDup_cons in Hnd as [Hp Hnd].
    destruct (Hres p) as [it Hit]; [left|].
    cbn [finish_loop stale_run]. rewrite Hit.
    destruct (id it =? -1).
    + exists h. split; [reflexivity|]. intros q.
      rewrite bool_decide_eq_false_2 by (intros H; inversion H). reflexivity.
    + destruct (IH (<[p := clear_item it]> h) Hnd) as (h' & -> & Hh').
      { intros q Hq. destruct (decide (p = q)) as [->|Hne].
        - rewrite list_lookup_insert_eq by (now apply lookup_lt_Some in Hit).
          eauto.
        - rewrite list_lookup_insert_ne by exact Hne. apply Hres. now right. }
      exists h'. split; [reflexivity|]. intros q. rewrite Hh'.
      rewrite (stale_run_insert _ _ _ _ Hp).
      destruct (decide (q = p)) as [->|Hne].
      * rewrite bool_decide_eq_false_2
          by (intros H; now apply stale_run_subseteq in H).
        rewrite bool_decide_eq_true_2 by left.
        rewrite list_lookup_insert_eq by (now apply lookup_lt_Some in Hit).
        now rewrite Hit.
      * rewrite list_lookup_insert_ne by auto.
        destruct (bool_decide (q ∈ stale_run h slots)) eqn:E.
        -- apply bool_decide_eq_true in E.
           rewrite bool_decide_eq_true_2 by (now right). reflexivity.
        -- apply bool_decide_eq_false in E.
           rewrite bool_decide_eq_false_2; [reflexivity|].
           intros H. apply elem_of_cons in H as [H|H]; auto.
Qed.

(** X4.  On a pool whose slots from the mark on are distinct live
    pointers, [finish] returns and clears exactly the run of slots from the
    mark up to the first one already cleared: every item of that run gets
    id -1 and loses object, geometry, material, program and group; every
    other item, below the mark or behind the first cleared slot, is as
    before; pool, mark and buckets are unchanged. *)
Theorem finish_clears_stale_run (l : GLRenderList) :
  let slots := drop (renderItemsIndex l) (renderItems l) in
  NoDup slots ->
  (forall p, p ∈ slots -> is_Some (heap l !! p)) ->
  exists l',
    finish l = Some l'
    /\ renderItems l' = renderItems l
    /\ renderItemsIndex l' = renderItemsIndex l
    /\ opaque l' = opaque l /\ transparent l' = transparent l
    /\ forall q,
         heap l' !! q = if bool_decide (q ∈ stale_run (heap l) slots)
                        then clear_item <$> heap l !! q
                        else heap l !! q.
Proof.
  intros slots Hnd Hres.
  destruct (finish_loop_clears slots (heap l) Hnd Hres) as (h' & Hf & Hh').
  unfold finish. fold slots. rewrite Hf. eexists. split; [reflexivity|].
  simpl. auto 10.
Qed.

Lemma finish_clears_stale_run_witness :
  let slots := drop (renderItemsIndex shrunk_list) (renderItems shrunk_list) in
  NoDup slots
  /\ (forall p, p ∈ slots -> is_Some (heap shrunk_list !! p))
  /\ exists l',
      finish shrunk_list = Some l'
      /\ renderItems l' = renderItems shrunk_list
      /\ renderItemsIndex l' = renderItemsIndex shrunk_list
      /\ opaque l' = opaque shrunk_list
      /\ transparent l' = transparent shrunk_list
      /\ forall q,
           heap l' !! q
           = if bool_decide (q ∈ stale_run (heap shrunk_list) slots)
             then clear_item <$> heap shrunk_list !! q
             else heap shrunk_list !! q.
Proof.
  intros slots.
  assert (H1 : NoDup slots) by (apply (bool_decide_unpack _); reflexivity).
  assert (H2 : forall p, p ∈ slots -> is_Some (heap shrunk_list !! p)).
  { intros p Hp. apply elem_of_cons in Hp as [->|Hp];
      [|apply elem_of_cons in Hp as [->|Hp]; [|inversion Hp]];
      eexists; reflexivity. }
  split; [exact H1|]. split; [exact H2|].
  exact (finish_clears_stale_run shrunk_list H1 H2).
Defined.

Lemma finish_loop_keeps_cleared (slots : list nat) (h h' : list RenderItem)
    (p : nat) (it : RenderItem) :
  finish_loop h slots = Some h' ->
  h !! p = Some it -> id it = -1 ->
  exists it', h' !! p = Some it' /\ id it' = -1.
Proof.
  revert h it. induction slots as [|q slots IH]; intros h it Hf Hp Hid.
  - injection Hf as <-. eauto.
  - simpl in Hf. destruct (h !! q) as [x|] eqn:Hq; [|discriminate].
    destruct (id x =? -1); [injection Hf as <-; eauto|].
    destruct (decide (q = p)) as [->|Hne].
    + eapply (IH _ (clear_item x)); [exact Hf| |reflexivity].
      apply list_lookup_insert_eq. now apply lookup_lt_Some in Hq.
    + eapply (IH _ it); [exact Hf| |exact Hid].
      now rewrite list_lookup_insert_ne.
Qed.

Lemma finish_loop_idempotent (slots : list nat) (h h' : list RenderItem) :
  finish_loop h slots = Some h' -> finish_loop h' slots = Some h'.
Proof.
  destruct slots as [|p slots]; [now intros [= <-]|].
  intros Hf. simpl in Hf |- *.
  destruct (h !! p) as [x|] eqn:Hp; [|discriminate].
  destruct (Z.eqb_spec (id x) (-1)) as [Hid|Hid].
  - injection Hf as <-. rewrite Hp.
    destruct (Z.eqb_spec (id x) (-1)); [reflexivity | contradiction].
  - destruct (finish_loop_keeps_cleared _ _ _ p (clear_item x) Hf)
      as (it' & -> & Hid'); [|reflexivity|].
    + apply list_lookup_insert_eq. now apply lookup_lt_Some in Hp.
    + rewrite Hid'. reflexivity.
Qed.

(** X5.  [finish] is idempotent on any list: when it returns, a second
    [finish] returns the same list, its walk stopping at the first slot. *)
Theorem finish_idempotent (l l' : GLRenderList) :
  finish l = Some l' -> finish l' = Some l'.
Proof.
  unfold finish.
  destruct (finish_loop (heap l) _) as [h|] eqn:Hf; [|discriminate].
  intros [= <-]. simpl. rewrite (finish_loop_idempotent _ _ _ Hf).
  reflexivity.
Qed.

Lemma finish_idempotent_witness :
  exists l', finish shrunk_list = Some l' /\ finish l' = Some l'.
Proof.
  eexists. split; [reflexivity|].
  apply (finish_idempotent shrunk_list). reflexivity.
Defined.

(** ** Unshifts *)

Lemma unshifts_frame (base : nat) (args : list DrawArgs) (l : GLRenderList) :
  frame base l ->
  exists s ts os,
    calls (Unshift <$> args) l = Some s
    /\ frame base s
    /\ heap l `prefix_of` heap s
    /\ transparent s = ts ++ transparent l
    /\ opaque s = os ++ opaque l
    /\ draw_of (heap s) <$> ts = Some <$> rev (List.filter is_transparent args)
    /\ draw_of (heap s) <$> os
       = Some <$> rev (List.filter (fun a => negb (is_transparent a)) args).
Proof.
  revert l. induction args as [|a args IH]; intros l Hl.
  - exists l, [], []. split_and!; auto.
  - destruct (unshift_frame base l Hl a) as (l1 & E & Hl1 & Hh & _ & Hb).
    destruct (IH l1 Hl1) as (s & ts & os & Hs & Hfs & Hpre & Ht & Ho & Hdt & Hdo).
    assert (Hp : draw_of (heap s) (length (heap l)) = Some a).
    { apply (draw_of_fresh _ a l). eapply prefix_lookup_Some; [|exact Hpre].
      rewrite Hh. now apply list_lookup_middle. }
    assert (Hpre' : heap l `prefix_of` heap s).
    { etrans; [|exact Hpre]. rewrite Hh. now apply prefix_app_r. }
    change (calls (Unshift <$> a :: args) l)
      with (match call (Unshift a) l with
            | Some l' => calls (Unshift <$> args) l'
            | None => None
            end).
    rewrite E. cbn [List.filter].
    destruct (is_transparent a); cbn [negb]; destruct Hb as [Hb1 Hb2].
    + exists s, (ts ++ [length (heap l)]), os.
      rewrite Ht, Ho, Hb1, Hb2, <- app_assoc. cbn [rev].
      rewrite !fmap_app, Hdt, Hdo. cbn [fmap list_fmap]. rewrite Hp.
      split_and!; auto.
    + exists s, ts, (os ++ [length (heap l)]).
      rewrite Ht, Ho, Hb1, Hb2, <- app_assoc. cbn [rev].
      rewrite !fmap_app, Hdt, Hdo. cbn [fmap list_fmap]. rewrite Hp.
      split_and!; auto.
Qed.

(** X6.  After [init], any number of unshifts returns a list whose
    transparent bucket holds exactly the draws with a transparent material
    and whose opaque bucket holds the others, each in the reverse of the
    order of the calls: the draw unshifted last comes first. *)
Theorem unshifts_fill_buckets_in_reverse (l : GLRenderList) (args : list DrawArgs) :
  exists s,
    calls (Unshift <$> args) (init l) = Some s
    /\ draw_of (heap s) <$> transparent s
       = Some <$> rev (List.filter is_transparent args)
    /\ draw_of (heap s) <$> opaque s
       = Some <$> rev (List.filter (fun a => negb (is_transparent a)) args).
Proof.
  destruct (unshifts_frame _ args _ (init_frame l))
    as (s & ts & os & Hs & _ & _ & Ht & Ho & Hdt & Hdo).
  simpl in Ht, Ho. rewrite app_nil_r in Ht, Ho. subst ts os. eauto.
Qed.

(** ** What a frame never touches *)

Lemma get_snd_default {V : Type} (d : V) (k k' : string) (t : gmap string V) :
  default d ((GLProperties.get d k t).2 !! k') = default d (t !! k').
Proof.
  unfold GLProperties.get. destruct (t !! k) eqn:E; simpl; [reflexivity|].
  destruct (decide (k = k')) as [<-|Hne].
  - now rewrite lookup_insert_eq, E.
  - now rewrite lookup_insert_ne.
Qed.

Lemma getNextRenderItem_linkage
    (object : Object3D) (geometry : BufferGeometry) (material : Material)
    (groupOrder : Z) (depth : spec_float) (group : option GeometryGroup)
    (l l' : GLRenderList) (p : nat) :
  getNextRenderItem object geometry material groupOrder depth group l
  = Some (p, l') ->
  forall m, linkage m l' = linkage m l.
Proof.
  unfold getNextRenderItem, linkage.
  pose proof (fun k' => get_snd_default MaterialProperties_default
                          (m_uuid material) k' (properties l)) as Hget.
  destruct (GLProperties.get _ _ _) as [mp props]. simpl in Hget.
  destruct (_ <=? _)%nat.
  - intros [= _ <-] m. simpl. apply Hget.
  - destruct (renderItems l !! _); [|discriminate].
    destruct (heap l !! _); [|discriminate].
    intros [= _ <-] m. simpl. apply Hget.
Qed.

Lemma call_linkage (c : Call) (l l' : GLRenderList) :
  call c l = Some l' -> forall m, linkage m l' = linkage m l.
Proof.
  destruct c as [a | a | |]; simpl.
  - unfold push.
    destruct (getNextRenderItem _ _ _ _ _ _ l) as [[p l1]|] eqn:E;
      [|discriminate].
    pose proof (getNextRenderItem_linkage _ _ _ _ _ _ _ _ _ E) as Hl.
    destruct (m_transparent _); intros [= <-] m; apply Hl.
  - unfold unshift.
    destruct (getNextRenderItem _ _ _ _ _ _ l) as [[p l1]|] eqn:E;
      [|discriminate].
    pose proof (getNextRenderItem_linkage _ _ _ _ _ _ _ _ _ E) as Hl.
    destruct (m_transparent _); intros [= <-] m; apply Hl.
  - intros Hs m. destruct (sort_inv _ _ Hs) as (_ & Hp & _).
    unfold linkage. now rewrite Hp.
  - unfold finish. destruct (finish_loop _ _); [|discriminate].
    now intros [= <-] m.
Qed.

Lemma calls_keep (base : nat) (cs : list Call) (l : GLRenderList) :
  frame base l ->
  exists l',
    calls cs l = Some l' /\ frame base l'
    /\ heap l `prefix_of` heap l'
    /\ forall m, linkage m l' = linkage m l.
Proof.
  revert l. induction cs as [|c cs IH]; intros l Hl; simpl.
  - exists l. auto.
  - destruct (call_frame base l Hl c) as (l1 & E & Hl1 & _ & Hpre).
    rewrite E. destruct (IH l1 Hl1) as (l' & Hc & Hl' & Hpre' & Hlink).
    exists l'. split_and!; auto.
    + now trans (heap l1).
    + intros m. rewrite Hlink. now apply (call_linkage c l).
Qed.

(** X7.  During a frame nothing already handed out changes: whatever
    calls follow [init], and whatever calls follow those, the second run
    returns, every render item present after the first run is still there
    unchanged after the second (items are only appended), and every
    material resolves to the same linkage record as before. *)
Theorem frame_never_rewrites (l : GLRenderList) (cs1 cs2 : list Call) :
  exists s1 s2,
    calls cs1 (init l) = Some s1
    /\ calls cs2 s1 = Some s2
    /\ heap s1 `prefix_of` heap s2
    /\ forall m, linkage m s2 = linkage m s1.
Proof.
  destruct (calls_keep _ cs1 _ (init_frame l)) as (s1 & H1 & Hf1 & _).
  destruct (calls_keep _ cs2 _ Hf1) as (s2 & H2 & _ & Hpre & Hlink).
  eauto 10.
Qed.

End RenderListFacts.
